(** * security-demo: the RSA lab, the attack simulator and the work router

    A shallow embedding of [src/App.jsx].  The parts that carry logic are
    embedded, each in a module of its own:

    - [RSA]: [egcd], [modInv], [trialFactor], the presets [rsaLevels] and the
      [compute] handler of the [RSALevel] component, on exact integers;
    - [RSA64]: the same functions with the rounding arithmetic of doubles
      ([JS64]), for what depends on it;
    - [Attack]: the demo tables and [simulateAttack];
    - [Router]: [getNormalizedBasePath], [stripBaseFromPath], [parseWorkId],
      [buildPathFromWorkId], the [useWorkRoute] hook and the view selection
      of [App].

    The statements about them follow the modules. *)

From Stdlib Require Import ZArith Lia List String Ascii Bool Znumtheory.
From stdpp Require Import gmap strings.
From Equations Require Import Equations.

Import ListNotations.
Local Open Scope Z_scope.

(** ** JavaScript numbers

    The text fields of the RSA lab are free text, so [Number(...)] of a field
    is either a number or [NaN].  Numbers are modelled on the integers, where
    double arithmetic is exact ([Z] stands for the safe-integer range);
    fractions and infinities are outside the model.  What is stated on this
    model concerns runs whose values stay in that range: trial division,
    the resolution of the key, and the presets.  Where rounding or overflow
    matters the statements are on [JS64] below.  [-0] is identified with
    [0]: the program only compares numbers with [===] and [<=], which do
    not tell them apart. *)
Module JS.

Inductive num : Type :=
| Int (z : Z)
| NaN.

(** A variable holding [null] or a number, as [P], [Q], [N], [E], [D] do. *)
Definition value : Type := option num.
Definition null : value := None.

(** Truthiness: [0], [NaN] and [null] are falsy. *)
Definition truthy_num (v : num) : bool :=
  match v with
  | Int z => negb (z =? 0)
  | NaN => false
  end.

Definition truthy (v : value) : bool :=
  match v with
  | Some w => truthy_num w
  | None => false
  end.

(** Numeric coercion of an operand: [null] becomes [0]. *)
Definition ToNumber (v : value) : num :=
  match v with
  | Some w => w
  | None => Int 0
  end.

Definition add (a b : num) : num :=
  match a, b with
  | Int u, Int v => Int (u + v)
  | _, _ => NaN
  end.

Definition sub (a b : num) : num :=
  match a, b with
  | Int u, Int v => Int (u - v)
  | _, _ => NaN
  end.

Definition mul (a b : num) : num :=
  match a, b with
  | Int u, Int v => Int (u * v)
  | _, _ => NaN
  end.

(** [a % b]: the remainder has the sign of the dividend ([Z.rem]);
    [a % 0] is [NaN]. *)
Definition rem (a b : num) : num :=
  match a, b with
  | Int u, Int v => if v =? 0 then NaN else Int (Z.rem u v)
  | _, _ => NaN
  end.

(** [Math.floor(a / b)]: the floored quotient ([Z.div]).  For [b = 0] the
    quotient is infinite or [NaN] in JavaScript; the model has no
    infinities and gives [NaN] (the program divides only after testing
    [b !== 0], see [RSA.egcd_rec]). *)
Definition floor_div (a b : num) : num :=
  match a, b with
  | Int u, Int v => if v =? 0 then NaN else Int (u / v)
  | _, _ => NaN
  end.

(** [a / b] where the program has established [a % b === 0]. *)
Definition exact_div (a b : num) : num := floor_div a b.

(** [a === b] on numbers: [NaN] is equal to nothing. *)
Definition strict_eq (a b : num) : bool :=
  match a, b with
  | Int u, Int v => u =? v
  | _, _ => false
  end.

(** What a [try] block ends with.  A recursion that never reaches its base
    case exhausts the call stack, and the engine throws a [RangeError];
    [Error msg] is [new Error(msg)]. *)
Inductive exn : Type :=
| Error (message : string)
| RangeError.

Inductive completion (A : Type) : Type :=
| Normal (v : A)
| Throw (err : exn).
Arguments Normal {A} v.
Arguments Throw {A} err.

(** Sequencing inside a [try] block: a throw skips what follows. *)
#[global] Instance completion_bind : MBind completion :=
  fun A B (k : A -> completion B) (c : completion A) =>
    match c with
    | Normal v => k v
    | Throw err => Throw err
    end.

End JS.

(** ** The RSA lab (App.jsx, lines 257-283) *)
Module RSA.
Import JS.

(** The object [{g, x, y}] returned by [egcd]. *)
Record bezout : Type := { g : num; x : num; y : num }.

(** [function egcd(a,b){ if(b===0) return {g:a,x:1,y:0};
      const {g,x:y1,y:x1}=egcd(b,a%b);
      return {g,x:x1,y:y1-Math.floor(a/b)*x1}; }]

    [depth] is the number of nested calls the stack still admits; [None]
    says that it did not suffice. *)
Fixpoint egcd_rec (depth : nat) (a b : num) : option bezout :=
  match depth with
  | O => None
  | S depth' =>
      if strict_eq b (Int 0) then Some {| g := a; x := Int 1; y := Int 0 |}
      else
        match egcd_rec depth' b (rem a b) with
        | None => None
        | Some r =>
            let y1 := x r in
            let x1 := y r in
            Some {| g := g r; x := x1;
                    y := sub y1 (mul (floor_div a b) x1) |}
        end
  end.

(** Nested calls that [egcd(a, b)] needs at most when it returns at all
    ([egcd_rec_enough] below): the second argument shrinks in absolute
    value at every call. *)
Definition egcd_depth (b : num) : nat :=
  match b with
  | Int v => S (Z.abs_nat v)
  | NaN => 1%nat
  end.

(** [egcd(a, b)] as a call: it returns, or it recurses for ever and the
    engine throws. *)
Definition egcd (a b : num) : completion bezout :=
  match egcd_rec (egcd_depth b) a b with
  | Some r => Normal r
  | None => Throw RangeError
  end.

(** [function modInv(a,m){ const {g,x}=egcd((a%m+m)%m,m);
      if(g!==1) return null; return (x%m+m)%m; }]

    [a] is [E], which is [null] when the field is empty. *)
Definition modInv (a : value) (m : num) : completion value :=
  r ← egcd (rem (add (rem (ToNumber a) m) m) m) m;
  if negb (strict_eq (g r) (Int 1)) then Normal null
  else Normal (Some (rem (add (rem (x r) m) m) m)).

(** The loop of [trialFactor] from candidate [i] on:
    [for(...; i*i<=n; i++){ if(n%i===0) return [i,n/i]; } return null;] *)
Equations? trialFactor_from (n i : Z) : option (num * num)
  by wf (Z.to_nat (n + 1 - i)) lt :=
  trialFactor_from n i with Z_le_dec (i * i) n := {
    | left _ =>
        if strict_eq (rem (Int n) (Int i)) (Int 0)
        then Some (Int i, exact_div (Int n) (Int i))
        else trialFactor_from n (i + 1)
    | right _ => None }.
Proof. nia. Qed.

(** [function trialFactor(n){ for(let i=2;i*i<=n;i++){...} return null; }]
    With [n] not a number the test [i*i<=n] fails at once. *)
Definition trialFactor (n : num) : option (num * num) :=
  match n with
  | Int v => trialFactor_from v 2
  | NaN => None
  end.

(** A preset: [{ key, title, given:{...}, ask }].  [given] is the object of
    the numbers handed out. *)
Record level : Type :=
  { key : string; title : string; given : gmap string Z; ask : string }.

Definition rsaLevels : list level :=
  [ {| key := "L1";
       title := "L1: p,q,e が与えられている（計算は面倒だが機械的）";
       given := <["p" := 17]> (<["q" := 23]> (<["e" := 3]> ∅));
       ask := "n, φ(n), d を計算" |};
    {| key := "L2";
       title := "L2: n,e と小さな p,q が与えられている（素因数から d を計算）";
       given := <["n" := 437]> (<["e" := 5]> (<["p" := 19]> (<["q" := 23]> ∅)));
       ask := "d を計算" |};
    {| key := "L3";
       title := "L3: n,e のみ（2桁×2桁の素因数分解が必要）";
       given := <["n" := 667]> (<["e" := 7]> ∅);
       ask := "p,q を見つけて d を計算" |} ].

(** A text field of the component: empty, or holding an entry whose
    [Number(...)] is [v] (a preset number, or text typed by the user). *)
Inductive field : Type :=
| Blank
| Entered (v : num).

(** What [setOut] receives: [{N,phi,D,P,Q}] or [{error: err.message}]
    (recorded here as the exception caught). *)
Inductive output : Type :=
| Values (N phi : num) (D : value) (P Q : num)
| Failed (err : exn).

(** The state of one [RSALevel] component. *)
Record state : Type :=
  { p : field; q : field; n : field; e : field; d : field;
    hint : string; out : option output }.

(** [def.given.p ?? ''] *)
Definition given_field (def : level) (name : string) : field :=
  match given def !! name with
  | Some v => Entered (Int v)
  | None => Blank
  end.

(** The initial [useState] values of [RSALevel({def})]. *)
Definition init (def : level) : state :=
  {| p := given_field def "p"; q := given_field def "q";
     n := given_field def "n"; e := given_field def "e";
     d := Blank; hint := EmptyString; out := None |}.

(** [p?Number(p):null] *)
Definition read (f : field) : value :=
  match f with
  | Blank => null
  | Entered v => Some v
  end.

Definition missing_key_message : string := "p,q,n のいずれかが未確定です".

(** Lines 276-278: the key material after the two resolution steps, or the
    exception of line 278. *)
Definition resolve (st : state) : completion (num * num * num) :=
  let P := read (p st) in
  let Q := read (q st) in
  let N := read (n st) in
  (* if(P&&Q) N=P*Q; *)
  let N := if truthy P && truthy Q
           then Some (mul (ToNumber P) (ToNumber Q)) else N in
  (* if((!P||!Q) && N){ const fac=trialFactor(N); if(fac){...} } *)
  let PQ := if (negb (truthy P) || negb (truthy Q)) && truthy N
            then match trialFactor (ToNumber N) with
                 | Some (f0, f1) => (Some f0, Some f1)
                 | None => (P, Q)
                 end
            else (P, Q) in
  let P := fst PQ in
  let Q := snd PQ in
  (* if(!P||!Q||!N) throw new Error(...) *)
  if negb (truthy P) || negb (truthy Q) || negb (truthy N)
  then Throw (Error missing_key_message)
  else Normal (ToNumber P, ToNumber Q, ToNumber N).

(** The body of the [try] block of [compute]. *)
Definition compute_try (st : state) : completion output :=
  let E := read (e st) in
  '(P, Q, N) ← resolve st;
  let phi := mul (sub P (Int 1)) (sub Q (Int 1)) in
  D ← modInv E phi;
  Normal (Values N phi D P Q).

(** [function compute(){ try{ ...; setOut({N,phi,D,P,Q}); }
      catch(err){ setOut({error: err.message}); } }] *)
Definition compute (st : state) : state :=
  let o := match compute_try st with
           | Normal v => v
           | Throw err => Failed err
           end in
  {| p := p st; q := q st; n := n st; e := e st; d := d st;
     hint := hint st; out := Some o |}.

End RSA.

(** ** JavaScript numbers as doubles

    The same numbers with the arithmetic of binary64.  A value is an
    integer-valued double [Fin z], an infinity or [NaN]; what [+], [-] and
    [*] produce is rounded to the nearest double, ties to even, and
    overflows to an infinity.  Fractional doubles are outside the model:
    the fields below hold integers, infinities or [NaN].  As before [-0] is
    identified with [0]. *)
Module JS64.

Inductive double : Type :=
| Fin (z : Z)
| PosInf
| NegInf
| NaN.

Definition value : Type := option double.
Definition null : value := None.

(** The double nearest to the integer [z]: integers up to [2^53] in
    magnitude are doubles; beyond, 53 significant bits are kept, ties go to
    the even significand, and from [2^1024] on the result is infinite. *)
Definition round (z : Z) : double :=
  if Z.abs z <=? 2 ^ 53 then Fin z
  else
    let a := Z.abs z in
    let e := Z.log2 a - 52 in
    let q := a / 2 ^ e in
    let r := a mod 2 ^ e in
    let half := 2 ^ (e - 1) in
    let q' := if (half <? r) || ((r =? half) && Z.odd q) then q + 1 else q in
    let v := q' * 2 ^ e in
    if 2 ^ 1024 <=? v then (if z <? 0 then NegInf else PosInf)
    else Fin (Z.sgn z * v).

(** The integers that are doubles. *)
Definition representable (z : Z) : Prop := round z = Fin z.

(** Truthiness: [0], [NaN] and [null] are falsy; the infinities are
    truthy. *)
Definition truthy_num (v : double) : bool :=
  match v with
  | Fin z => negb (z =? 0)
  | PosInf | NegInf => true
  | NaN => false
  end.

Definition truthy (v : value) : bool :=
  match v with
  | Some w => truthy_num w
  | None => false
  end.

Definition ToNumber (v : value) : double :=
  match v with
  | Some w => w
  | None => Fin 0
  end.

Definition neg (a : double) : double :=
  match a with
  | Fin u => Fin (- u)
  | PosInf => NegInf
  | NegInf => PosInf
  | NaN => NaN
  end.

(** [a + b] *)
Definition add (a b : double) : double :=
  match a, b with
  | Fin u, Fin v => round (u + v)
  | NaN, _ | _, NaN => NaN
  | PosInf, NegInf | NegInf, PosInf => NaN
  | PosInf, _ | _, PosInf => PosInf
  | NegInf, _ | _, NegInf => NegInf
  end.

(** [a - b] *)
Definition sub (a b : double) : double := add a (neg b).

(** The sign of a non-zero operand of [*] or [/]: [true] for negative. *)
Definition negative (a : double) : bool :=
  match a with
  | Fin u => u <? 0
  | NegInf => true
  | PosInf | NaN => false
  end.

Definition infinity (negative : bool) : double :=
  if negative then NegInf else PosInf.

(** [a * b]: an infinity times zero is [NaN]. *)
Definition mul (a b : double) : double :=
  match a, b with
  | Fin u, Fin v => round (u * v)
  | NaN, _ | _, NaN => NaN
  | Fin u, _ => if u =? 0 then NaN else infinity (xorb (negative a) (negative b))
  | _, Fin v => if v =? 0 then NaN else infinity (xorb (negative a) (negative b))
  | _, _ => infinity (xorb (negative a) (negative b))
  end.

(** [a % b]: exact on doubles, with the sign of the dividend; [NaN] for a
    zero divisor or an infinite dividend; a finite dividend is returned as
    it is by an infinite divisor. *)
Definition rem (a b : double) : double :=
  match a, b with
  | Fin u, Fin v => if v =? 0 then NaN else Fin (Z.rem u v)
  | Fin u, (PosInf | NegInf) => Fin u
  | _, _ => NaN
  end.

(** The double nearest to [u / v], floored, for integers [u] and
    [v <> 0].  The quotient is scaled by a power of two to a significand
    of 53 bits (fewer in the subnormal range), rounded to the nearest
    integer, ties to even, and scaled back before the floor is taken. *)
Definition floor_quotient (u v : Z) : Z :=
  let a := Z.abs u in
  let b := Z.abs v in
  if a =? 0 then 0
  else
    let k := Z.log2 a - Z.log2 b in
    let reaches := if 0 <=? k then b * 2 ^ k <=? a else b <=? a * 2 ^ (- k) in
    let lg := if reaches then k else k - 1 in
    let e := Z.max (lg - 52) (- 1074) in
    let num := a * 2 ^ Z.max 0 (- e) in
    let den := b * 2 ^ Z.max 0 e in
    let m0 := num / den in
    let r := num mod den in
    let m := if (den <? 2 * r) || ((2 * r =? den) && Z.odd m0)
             then m0 + 1 else m0 in
    let sm := if xorb (u <? 0) (v <? 0) then - m else m in
    if 0 <=? e then sm * 2 ^ e else sm / 2 ^ (- e).

(** [Math.floor(a / b)].  A finite number over an infinity is a zero.  A
    zero divisor gives an infinite quotient whose sign depends on the sign
    of the zero; the program divides only after the test [b !== 0], and the
    model answers [NaN] there. *)
Definition floor_div (a b : double) : double :=
  match a, b with
  | Fin u, Fin v => if v =? 0 then NaN else Fin (floor_quotient u v)
  | Fin u, (PosInf | NegInf) => Fin 0
  | (PosInf | NegInf), Fin v =>
      if v =? 0 then NaN else infinity (xorb (negative a) (negative b))
  | _, _ => NaN
  end.

(** [a === b] on numbers. *)
Definition strict_eq (a b : double) : bool :=
  match a, b with
  | Fin u, Fin v => u =? v
  | PosInf, PosInf | NegInf, NegInf => true
  | _, _ => false
  end.

(** How a call ends: it returns, it throws, or it never comes back (a
    loop that runs for ever). *)
Inductive outcome (A : Type) : Type :=
| Returns (v : A)
| Throws (err : JS.exn)
| Hangs.
Arguments Returns {A} v.
Arguments Throws {A} err.
Arguments Hangs {A}.

#[global] Instance outcome_bind : MBind outcome :=
  fun A B (k : A -> outcome B) (c : outcome A) =>
    match c with
    | Returns v => k v
    | Throws err => Throws err
    | Hangs => Hangs
    end.

End JS64.

(** ** The RSA lab on doubles (App.jsx, lines 257-283)

    The functions of [RSA] once more, with the arithmetic of [JS64]. *)
Module RSA64.
Import JS64.

Record bezout : Type := { g : double; x : double; y : double }.

(** [function egcd(a,b){ if(b===0) return {g:a,x:1,y:0};
      const {g,x:y1,y:x1}=egcd(b,a%b);
      return {g,x:x1,y:y1-Math.floor(a/b)*x1}; }] *)
Fixpoint egcd_rec (depth : nat) (a b : double) : option bezout :=
  match depth with
  | O => None
  | S depth' =>
      if strict_eq b (Fin 0) then Some {| g := a; x := Fin 1; y := Fin 0 |}
      else
        match egcd_rec depth' b (rem a b) with
        | None => None
        | Some r =>
            let y1 := x r in
            let x1 := y r in
            Some {| g := g r; x := x1;
                    y := sub y1 (mul (floor_div a b) x1) |}
        end
  end.

(** Nested calls that [egcd(a, b)] needs at most when it returns at all.
    For a finite [b] the second argument at least halves every two calls,
    so twice the bit length of [b], plus one, suffices; an infinite [b] is
    followed by [a % b = a], so the call returns at the second level or
    never. *)
Definition egcd_depth (b : double) : nat :=
  match b with
  | Fin v => S (2 * S (Z.to_nat (Z.log2 (Z.abs v))))
  | PosInf | NegInf => 2%nat
  | NaN => 1%nat
  end.

Definition egcd (a b : double) : outcome bezout :=
  match egcd_rec (egcd_depth b) a b with
  | Some r => Returns r
  | None => Throws JS.RangeError
  end.

(** [function modInv(a,m){ const {g,x}=egcd((a%m+m)%m,m);
      if(g!==1) return null; return (x%m+m)%m; }] *)
Definition modInv (a : value) (m : double) : outcome value :=
  r ← egcd (rem (add (rem (ToNumber a) m) m) m) m;
  if negb (strict_eq (g r) (Fin 1)) then Returns null
  else Returns (Some (rem (add (rem (x r) m) m) m)).

Definition of_exact (v : JS.num) : double :=
  match v with
  | JS.Int z => Fin z
  | JS.NaN => NaN
  end.

(** [function trialFactor(n){ for(let i=2;i*i<=n;i++){ if(n%i===0) return
    [i,n/i]; } return null; }]

    On a finite double the loop is the one of [RSA.trialFactor], which is
    exact there: below [2^53] the values [i*i], [n%i] and [n/i] are exact,
    and from [2^53] on every double is even, so that the first candidate
    divides.  For [n = Infinity] the test [i*i<=n] always holds and [n%i] is
    [NaN]: the loop never ends.  For [-Infinity] and [NaN] the test fails
    at once. *)
Definition trialFactor (n : double) : outcome (option (double * double)) :=
  match n with
  | Fin v =>
      Returns match RSA.trialFactor (JS.Int v) with
              | Some (P, Q) => Some (of_exact P, of_exact Q)
              | None => None
              end
  | PosInf => Hangs
  | NegInf | NaN => Returns None
  end.

(** A text field: empty, or holding an entry whose [Number(...)] is the
    double [v]. *)
Inductive field : Type :=
| Blank
| Entered (v : double).

Inductive output : Type :=
| Values (N phi : double) (D : value) (P Q : double)
| Failed (err : JS.exn).

Record state : Type :=
  { p : field; q : field; n : field; e : field; d : field;
    hint : string; out : option output }.

(** [def.given.p ?? ''] *)
Definition given_field (def : RSA.level) (name : string) : field :=
  match RSA.given def !! name with
  | Some v => Entered (Fin v)
  | None => Blank
  end.

Definition init (def : RSA.level) : state :=
  {| p := given_field def "p"; q := given_field def "q";
     n := given_field def "n"; e := given_field def "e";
     d := Blank; hint := EmptyString; out := None |}.

(** [p?Number(p):null] *)
Definition read (f : field) : value :=
  match f with
  | Blank => null
  | Entered v => Some v
  end.

(** Lines 276-278. *)
Definition resolve (st : state) : outcome (double * double * double) :=
  let P := read (p st) in
  let Q := read (q st) in
  let N := read (n st) in
  (* if(P&&Q) N=P*Q; *)
  let N := if truthy P && truthy Q
           then Some (mul (ToNumber P) (ToNumber Q)) else N in
  (* if((!P||!Q) && N){ const fac=trialFactor(N); if(fac){...} } *)
  PQ ← (if (negb (truthy P) || negb (truthy Q)) && truthy N
        then fac ← trialFactor (ToNumber N);
             Returns match fac with
                     | Some (f0, f1) => (Some f0, Some f1)
                     | None => (P, Q)
                     end
        else Returns (P, Q));
  let P := fst PQ in
  let Q := snd PQ in
  (* if(!P||!Q||!N) throw new Error(...) *)
  if negb (truthy P) || negb (truthy Q) || negb (truthy N)
  then Throws (JS.Error RSA.missing_key_message)
  else Returns (ToNumber P, ToNumber Q, ToNumber N).

(** The body of the [try] block of [compute]. *)
Definition compute_try (st : state) : outcome output :=
  let E := read (e st) in
  '(P, Q, N) ← resolve st;
  let phi := mul (sub P (Fin 1)) (sub Q (Fin 1)) in
  D ← modInv E phi;
  Returns (Values N phi D P Q).

(** [function compute(){ try{ ...; setOut({N,phi,D,P,Q}); }
      catch(err){ setOut({error: err.message}); } }]

    [None] when the handler never returns. *)
Definition compute (st : state) : option state :=
  match compute_try st with
  | Hangs => None
  | Returns v =>
      Some {| p := p st; q := q st; n := n st; e := e st; d := d st;
              hint := hint st; out := Some v |}
  | Throws err =>
      Some {| p := p st; q := q st; n := n st; e := e st; d := d st;
              hint := hint st; out := Some (Failed err) |}
  end.

(** What the result panel holds after [compute], if it returns. *)
Definition shown (st : state) : option output :=
  match compute st with
  | Some st' => out st'
  | None => None
  end.

End RSA64.

(** ** The attack simulator (App.jsx, lines 186-203) *)
Module Attack.

(** The property names of the [vulns] and [controls] objects. *)
Inductive flag : Type :=
| reused | weakPattern | phishable | exposedEmail | mfa | pm.

#[global] Instance flag_eq_dec : EqDecision flag.
Proof. solve_decision. Defined.

Definition flag_code (f : flag) : nat :=
  match f with
  | reused => 0 | weakPattern => 1 | phishable => 2
  | exposedEmail => 3 | mfa => 4 | pm => 5
  end%nat.

Definition flag_of_code (c : nat) : flag :=
  match c with
  | 0 => reused | 1 => weakPattern | 2 => phishable
  | 3 => exposedEmail | 4 => mfa | _ => pm
  end%nat.

#[global] Instance flag_countable : Countable flag :=
  inj_countable' flag_code flag_of_code
    (fun f => match f with
              | reused | weakPattern | phishable
              | exposedEmail | mfa | pm => eq_refl
              end).

Record account : Type :=
  { id : string; label : string; username : string; password : string;
    vulns : gmap flag bool; controls : gmap flag bool }.

Record method : Type :=
  { key : string; name : string; description : string;
    exploits : list flag; blockedBy : list flag }.

Record outcome : Type := { success : bool; reason : string }.

Definition demoAccounts : list account :=
  [ {| id := "userA"; label := "Aさん（大学メール）";
       username := "u123456@univ.ac.jp"; password := "Tennis2024";
       vulns := <[reused := true]> (<[weakPattern := true]>
                  (<[phishable := true]> (<[exposedEmail := true]> ∅)));
       controls := <[mfa := false]> (<[pm := false]> ∅) |};
    {| id := "userB"; label := "Bさん（クラブSNS）";
       username := "club_b"; password := "Mar14rally!";
       vulns := <[reused := false]> (<[weakPattern := true]>
                  (<[phishable := true]> (<[exposedEmail := false]> ∅)));
       controls := <[mfa := true]> (<[pm := false]> ∅) |};
    {| id := "userC"; label := "Cさん（個人ブログ）";
       username := "c_blog"; password := "V7t9-kp3Q-ax4M";
       vulns := <[reused := false]> (<[weakPattern := false]>
                  (<[phishable := false]> (<[exposedEmail := true]> ∅)));
       controls := <[mfa := true]> (<[pm := true]> ∅) |} ].

Definition attackMethods : list method :=
  [ {| key := "leak"; name := "漏洩流用";
       description := "既知の漏洩リストからID/パスを試す。コスト最小。";
       exploits := [reused]; blockedBy := [mfa] |};
    {| key := "phish"; name := "フィッシング";
       description := "偽ログインで入力させる。急がせ/罰・報酬の心理を利用。";
       exploits := [phishable]; blockedBy := [mfa] |};
    {| key := "guess"; name := "推測（辞書/個人情報）";
       description := "趣味+年、誕生日、口癖など“人間らしさ”を推測。";
       exploits := [weakPattern]; blockedBy := [] |};
    {| key := "social"; name := "ソーシャルエンジニアリング";
       description := "メール公開や在籍情報を足掛かりに再設定誘導。";
       exploits := [exposedEmail]; blockedBy := [mfa] |} ].

(** [obj[k]] used as a condition: a property that is absent reads as
    [undefined], which is falsy. *)
Definition get (obj : gmap flag bool) (k : flag) : bool :=
  default false (obj !! k).

Definition reason_no_match : string :=
  "選んだ手法は、このアカウントの弱点に刺さりません。".
Definition reason_blocked : string :=
  "脆弱性はあったが、MFA等の対策で阻止されました。".
Definition reason_success : string :=
  "脆弱性に一致、かつ決定的な対策なし。不正ログイン成立。".

(** [function simulateAttack(account, method){
      const hitVuln = method.exploits.some(v=>account.vulns[v]);
      if(!hitVuln) return {success:false, reason:...};
      if(method.blockedBy.some(b=>account.controls[b])) return {success:false, reason:...};
      return {success:true, reason:...}; }] *)
Definition simulateAttack (account : account) (method : method) : outcome :=
  let hitVuln := existsb (fun v => get (vulns account) v) (exploits method) in
  if negb hitVuln then {| success := false; reason := reason_no_match |}
  else if existsb (fun b => get (controls account) b) (blockedBy method)
       then {| success := false; reason := reason_blocked |}
       else {| success := true; reason := reason_success |}.

(** [demoAccounts.find(a=>a.id===targetId)] and
    [attackMethods.find(a=>a.key===methodKey)] of [WorkAttackSim]. *)
Definition find_account (targetId : string) : option account :=
  find (fun a => String.eqb (id a) targetId) demoAccounts.

Definition find_method (methodKey : string) : option method :=
  find (fun a => String.eqb (key a) methodKey) attackMethods.

(** The attack button of [WorkAttackSim]:
    [setResult(simulateAttack(target, method))] for the selected ids. *)
Definition attack (targetId methodKey : string) : option outcome :=
  target ← find_account targetId;
  method ← find_method methodKey;
  Some (simulateAttack target method).

(** The outcome in the words of the specification: failure for want of a
    match when the method's exploit flags and the account's true
    vulnerability flags do not meet; else failure by a control when a
    blocking flag is among the account's true control flags; else
    success. *)
Definition true_flags (obj : gmap flag bool) : gset flag :=
  dom (filter (fun kv => kv.2 = true) obj).

Definition resolve_outcome (account : account) (method : method) : outcome :=
  if decide (list_to_set (exploits method) ∩ true_flags (vulns account)
             = (∅ : gset flag))
  then {| success := false; reason := reason_no_match |}
  else if decide (list_to_set (blockedBy method) ∩ true_flags (controls account)
                  = (∅ : gset flag))
       then {| success := true; reason := reason_success |}
       else {| success := false; reason := reason_blocked |}.

End Attack.

(** ** The work router and the root view (App.jsx, lines 59-124, 328-415) *)
Module Router.

(** *** The string methods the router uses *)

(** [s.startsWith(pre)] *)
Fixpoint startsWith (s pre : string) {struct pre} : bool :=
  match pre, s with
  | EmptyString, _ => true
  | String c pre', String c' s' => Ascii.eqb c c' && startsWith s' pre'
  | String _ _, EmptyString => false
  end.

(** [s.slice(k)] *)
Fixpoint slice (k : nat) (s : string) : string :=
  match k, s with
  | O, _ => s
  | S k', String _ s' => slice k' s'
  | S _, EmptyString => EmptyString
  end.

(** [s.endsWith(suf)] *)
Definition endsWith (s suf : string) : bool :=
  (String.length suf <=? String.length s)%nat
  && String.eqb (slice (String.length s - String.length suf) s) suf.

(** [s.slice(0, -1)] *)
Fixpoint slice_init (s : string) : string :=
  match s with
  | EmptyString => EmptyString
  | String c EmptyString => EmptyString
  | String c s' => String c (slice_init s')
  end.

(** [s.replace(/^\/+/, empty)]: the leading slashes are removed. *)
Fixpoint strip_slashes (s : string) : string :=
  match s with
  | String c s' => if Ascii.eqb c "/" then strip_slashes s' else s
  | EmptyString => EmptyString
  end.

(** [s.split("/")] *)
Fixpoint split (s : string) : list string :=
  match s with
  | EmptyString => [EmptyString]
  | String c s' =>
      if Ascii.eqb c "/" then EmptyString :: split s'
      else match split s' with
           | seg :: segs => String c seg :: segs
           | [] => [String c EmptyString]
           end
  end.

(** [Boolean(s)], also [s] used as a condition: the empty string is
    falsy. *)
Definition nonempty (s : string) : bool := negb (String.eqb s EmptyString).

(** *** Paths and work identifiers *)

Definition WORK_KEYS : list string := ["1"; "2"; "3"].
Definition WORK_KEY_SET : gset string := list_to_set WORK_KEYS.
Definition DEFAULT_WORK_ID : string := "all".

(** [WORK_KEY_SET.has(k)] *)
Definition has (k : string) : bool := bool_decide (k ∈ WORK_KEY_SET).

Section Base.

(** [import.meta.env.BASE_URL], [None] when it is not defined. *)
Variable BASE_URL : option string.

Definition getNormalizedBasePath : string :=
  let base := default "/" BASE_URL in
  let withoutTrailingSlash :=
    if endsWith base "/" then slice_init base else base in
  if negb (nonempty withoutTrailingSlash) then EmptyString
  else if startsWith withoutTrailingSlash "/" then withoutTrailingSlash
       else String "/" withoutTrailingSlash.

Definition stripBaseFromPath (pathname : string) : string :=
  let normalizedBase := getNormalizedBasePath in
  if negb (nonempty normalizedBase) then strip_slashes pathname
  else if startsWith pathname normalizedBase then
         let remainder := slice (String.length normalizedBase) pathname in
         strip_slashes remainder
       else strip_slashes pathname.

Definition parseWorkId (pathname : string) : string :=
  if negb (nonempty pathname) then DEFAULT_WORK_ID
  else
    let remainder := stripBaseFromPath pathname in
    if negb (nonempty remainder) then DEFAULT_WORK_ID
    else
      (* const [firstSegment] = remainder.split("/").filter(Boolean); *)
      match filter (fun seg => nonempty seg = true) (split remainder) with
      | firstSegment :: _ =>
          if nonempty firstSegment && has firstSegment then firstSegment
          else DEFAULT_WORK_ID
      | [] => DEFAULT_WORK_ID
      end.

Definition buildPathFromWorkId (workId : string) : string :=
  let normalizedBase := getNormalizedBasePath in
  if String.eqb workId DEFAULT_WORK_ID
  then (if nonempty normalizedBase then normalizedBase else "/")
  else
    let prefix :=
      if nonempty normalizedBase then normalizedBase else EmptyString in
    String.append prefix (String "/" workId).

(** *** The hook [useWorkRoute] *)

(** The part of [window] the hook touches: [location.pathname], and the
    paths handed to [history.pushState], latest first. *)
Record window : Type := { pathname : string; pushed : list string }.

(** The hook in its host: [host] is [None] where [window] is undefined;
    [workId] is the hook's state. *)
Record route : Type := { host : option window; workId : string }.

(** [useState(getInitial)] *)
Definition useWorkRoute (defaultWorkId : string) (w : option window)
  : route :=
  {| host := w;
     workId := match w with
               | None => defaultWorkId
               | Some win => parseWorkId (pathname win)
               end |}.

(** [handlePopstate], run after the browser has moved to [path]. *)
Definition handlePopstate (path : string) (r : route) : route :=
  match host r with
  | None => r
  | Some win =>
      {| host := Some {| pathname := path; pushed := pushed win |};
         workId := parseWorkId path |}
  end.

(** [window.history.pushState({}, "", url)] as the browser of the page
    runs it: [None] when the call throws (a [SecurityError], for a path such
    as [//1] or on a [file:] page), otherwise [location.pathname] after the
    call, which is the path of the parsed URL: dot segments are resolved
    and characters outside the path set are percent-encoded. *)
Variable pushState : string -> option string.

(** An exception of [pushState] leaves [navigate] before [setWorkId]. *)
Definition navigate (nextId : string) (r : route) : route :=
  match host r with
  | None => r
  | Some win =>
      let normalized := if has nextId then nextId else DEFAULT_WORK_ID in
      let nextPath := buildPathFromWorkId normalized in
      if negb (String.eqb (pathname win) nextPath)
      then match pushState nextPath with
           | Some path =>
               {| host := Some {| pathname := path;
                                  pushed := nextPath :: pushed win |};
                  workId := normalized |}
           | None => r
           end
      else {| host := Some win; workId := normalized |}
  end.

(** What can happen to a mounted router. *)
Inductive event : Type :=
| Popstate (path : string)
| Navigate (nextId : string).

Definition step (r : route) (ev : event) : route :=
  match ev with
  | Popstate path => handlePopstate path r
  | Navigate nextId => navigate nextId r
  end.

(** [App] mounts the hook with [useWorkRoute(DEFAULT_WORK_ID)]. *)
Definition App_route (w : option window) : route :=
  useWorkRoute DEFAULT_WORK_ID w.

(** The router states [App] can be in. *)
Inductive reachable : route -> Prop :=
| reachable_mount (w : option window) : reachable (App_route w)
| reachable_step (r : route) (ev : event) :
    reachable r -> reachable (step r ev).

(** *** The path contract in the words of the specification *)

(** The characters of [s] before its first slash. *)
Fixpoint until_slash (s : string) : string :=
  match s with
  | String c s' =>
      if Ascii.eqb c "/" then EmptyString else String c (until_slash s')
  | EmptyString => EmptyString
  end.

(** Strip the configured base prefix. *)
Definition strip_base_prefix (pathname : string) : string :=
  if startsWith pathname getNormalizedBasePath
  then slice (String.length getNormalizedBasePath) pathname
  else pathname.

(** The first non-empty segment, the empty string when there is none. *)
Definition first_segment (s : string) : string :=
  until_slash (strip_slashes s).

(** Return the segment if it is a known identifier, else the show-all
    sentinel. *)
Definition work_of_path (pathname : string) : string :=
  let seg := first_segment (strip_base_prefix pathname) in
  if decide (seg ∈ WORK_KEYS) then seg else DEFAULT_WORK_ID.

End Base.

(** *** The root view *)

Inductive component : Type :=
| WorkPasswordCombinations | WorkAttackSim | WorkRSALab.

Record work : Type :=
  { id : string; navLabel : string; title : string; subtitle : string;
    Component : component }.

Definition WORK_SECTIONS : list work :=
  [ {| id := "1"; navLabel := "ワーク①";
       title := "ワーク①: パスワード組み合わせ";
       subtitle := "“短く複雑”より“長く覚えやすい”。10の何乗で直感を掴む。";
       Component := WorkPasswordCombinations |};
    {| id := "2"; navLabel := "ワーク②";
       title := "ワーク②: 攻撃シミュレーター";
       subtitle := "架空アカウント×攻撃手法。成否と“なぜ”を即時フィードバック。";
       Component := WorkAttackSim |};
    {| id := "3"; navLabel := "ワーク③";
       title := "ワーク③: RSAを解く計算をしよう";
       subtitle := "与えられる数字を減らしながら、RSAの“難しさ”を体感。";
       Component := WorkRSALab |} ].

(** A [<Section>] under [<main>]: a work, or the not-found notice. *)
Inductive section : Type :=
| WorkSection (w : work)
| NotFoundSection.

(** The children of [<main>] for the active identifier: the three
    conditional blocks of [App], in order. *)
Definition main (activeWorkId : string) : list section :=
  let activeWork :=
    find (fun w => String.eqb (id w) activeWorkId) WORK_SECTIONS in
  let isDefault := String.eqb activeWorkId DEFAULT_WORK_ID in
  (if isDefault then map WorkSection WORK_SECTIONS else [])
  ++ (match activeWork with
      | Some w => if negb isDefault then [WorkSection w] else []
      | None => []
      end)
  ++ (match activeWork with
      | None => if negb isDefault then [NotFoundSection] else []
      | Some _ => []
      end).

End Router.

(** * Properties *)

(** ** [egcd]: when it returns, and what *)

Section EgcdFacts.
Import JS RSA.

(** On a second argument that is not a number the recursion never reaches
    [b === 0]. *)
Lemma egcd_rec_NaN_r (depth : nat) (a : num) : egcd_rec depth a NaN = None.
Proof.
  revert a. induction depth as [|depth IH]; intros a; simpl; [reflexivity|].
  destruct a; simpl; now rewrite IH.
Qed.

(** A first argument that is not a number is passed on as [a % b]. *)
Lemma egcd_rec_NaN_l (depth : nat) (b : Z) :
  b <> 0 -> egcd_rec depth NaN (Int b) = None.
Proof.
  intros Hb. destruct depth as [|depth]; simpl; [reflexivity|].
  destruct (Z.eqb_spec b 0) as [?|_]; [contradiction|].
  now rewrite egcd_rec_NaN_r.
Qed.

End EgcdFacts.

(** ** [modInv] *)

Section ModInvFacts.
Import JS RSA.

(** [(u % m + m) % m] is the non-negative residue when [m] is positive. *)
Lemma rem_add_rem_pos (u m : Z) :
  0 < m -> Z.rem (Z.rem u m + m) m = u mod m.
Proof.
  intros Hm.
  assert (Hb : Z.abs (Z.rem u m) < Z.abs m) by (apply Z.rem_bound_abs; lia).
  rewrite Z.rem_mod_nonneg by lia.
  rewrite (Z.rem_eq u m) by lia.
  replace (u - m * (u ÷ m) + m) with (u + (1 - u ÷ m) * m) by ring.
  now rewrite Z.mod_add by lia.
Qed.

End ModInvFacts.

(** ** [trialFactor] *)

Section TrialFactorFacts.
Import JS RSA.

(** What the loop returns when entered at candidate [i]: the first
    candidate from [i] on that divides [n], with its cofactor, or [null]
    when no candidate below the root bound divides. *)
Lemma trialFactor_from_spec (n i : Z) :
  0 < i ->
  match trialFactor_from n i with
  | Some (P, Q) =>
      exists pv, P = Int pv /\ Q = Int (n / pv)
                 /\ i <= pv /\ pv * pv <= n /\ n mod pv = 0
                 /\ (forall j, i <= j < pv -> n mod j <> 0)
  | None => forall j, i <= j -> j * j <= n -> n mod j <> 0
  end.
Proof.
  funelim (trialFactor_from n i); intros Hi.
  - assert (Hn : 0 <= n0) by nia.
    assert (Hrem : Z.rem n0 i = n0 mod i) by (apply Z.rem_mod_nonneg; lia).
    unfold exact_div, floor_div, JS.rem, strict_eq.
    destruct (Z.eqb_spec i 0) as [?|_]; [lia|].
    destruct (Z.eqb_spec (Z.rem n0 i) 0) as [Hz|Hnz].
    + exists i. repeat split; try lia.
    + specialize (H ltac:(lia)).
      destruct (trialFactor_from n0 (i + 1)) as [[P Q]|].
      * destruct H as (pv & HP & HQ & Hle & Hsq & Hdiv & Hmin).
        exists pv. repeat split; try assumption; try lia.
        intros j Hj. destruct (Z.eq_dec j i) as [->|Hne]; [lia|].
        apply Hmin; lia.
      * intros j Hj Hsq. destruct (Z.eq_dec j i) as [->|Hne]; [lia|].
        apply H; lia.
  - intros j Hj Hsq. nia.
Qed.

(** C3.  For every natural [n >= 2], [trialFactor(n)] scans the
    candidates [i = 2, 3, ...] while [i*i <= n].  If some candidate divides
    [n] it returns [[p, q]] with [p] the smallest divisor of [n] from [2] on
    and [q = n/p], so [p*q = n].  If no candidate up to the root bound
    divides [n] it returns [null], and then [compute], with [p] or [q] not
    given, leaves them unresolved and ends in the missing-key error. *)
Theorem trialFactor_smallest_divisor (nv : Z) :
  2 <= nv ->
  (forall i, 2 <= i -> i * i <= nv -> nv mod i = 0 ->
     exists pv qv,
       trialFactor (Int nv) = Some (Int pv, Int qv)
       /\ 2 <= pv <= i /\ nv mod pv = 0
       /\ (forall j, 2 <= j < pv -> nv mod j <> 0)
       /\ qv = nv / pv /\ pv * qv = nv)
  /\ ((forall i, 2 <= i -> i * i <= nv -> nv mod i <> 0) ->
      trialFactor (Int nv) = None
      /\ forall st, n st = Entered (Int nv) ->
           truthy (read (p st)) && truthy (read (q st)) = false ->
           resolve st = Throw (Error missing_key_message)
           /\ out (compute st) = Some (Failed (Error missing_key_message))).
Proof.
  intros Hn. pose proof (trialFactor_from_spec nv 2 ltac:(lia)) as Hspec.
  simpl. split.
  - intros i Hi Hsq Hdiv.
    destruct (trialFactor_from nv 2) as [[P Q]|].
    + destruct Hspec as (pv & -> & -> & Hle & Hpsq & Hpdiv & Hmin).
      exists pv, (nv / pv). split; [reflexivity|].
      assert (pv <= i).
      { destruct (Z_le_gt_dec pv i) as [|Hgt]; [assumption|].
        exfalso. apply (Hmin i); [lia|assumption]. }
      repeat split; try assumption; try lia.
      apply Z.mod_divide in Hpdiv; [|lia].
      destruct Hpdiv as [k ->]. rewrite Z.div_mul by lia. ring.
    + exfalso. now apply (Hspec i).
  - intros Hnone.
    assert (Hnull : trialFactor_from nv 2 = None).
    { destruct (trialFactor_from nv 2) as [[P Q]|]; [|reflexivity].
      destruct Hspec as (pv & _ & _ & Hle & Hpsq & Hpdiv & _).
      exfalso. now apply (Hnone pv). }
    split; [assumption|].
    intros st Hst Hpq.
    assert (Hres : resolve st = Throw (Error missing_key_message)).
    { unfold resolve. rewrite Hst, Hpq. simpl.
      destruct (Z.eqb_spec nv 0) as [?|_]; [lia|]. simpl.
      apply andb_false_iff in Hpq.
      assert (Hor : negb (truthy (read (p st))) || negb (truthy (read (q st)))
                    = true).
      { destruct Hpq as [-> | ->]; simpl; [reflexivity|apply orb_true_r]. }
      rewrite Hor, Hnull. simpl. now rewrite Hor. }
    split; [assumption|].
    unfold compute, compute_try. now rewrite Hres.
Qed.

(** [n = 15] has the divisor [3] below its root bound; [n = 7] has none. *)
Lemma trialFactor_smallest_divisor_witness :
  (exists pv qv,
      trialFactor (Int 15) = Some (Int pv, Int qv)
      /\ 2 <= pv <= 3 /\ 15 mod pv = 0
      /\ (forall j, 2 <= j < pv -> 15 mod j <> 0)
      /\ qv = 15 / pv /\ pv * qv = 15)
  /\ (trialFactor (Int 7) = None
      /\ forall st, n st = Entered (Int 7) ->
           truthy (read (p st)) && truthy (read (q st)) = false ->
           resolve st = Throw (Error missing_key_message)
           /\ out (compute st) = Some (Failed (Error missing_key_message))).
Proof.
  split.
  - apply (proj1 (trialFactor_smallest_divisor 15 ltac:(lia)) 3);
      [lia | lia | reflexivity].
  - apply (proj2 (trialFactor_smallest_divisor 7 ltac:(lia))).
    intros i Hi Hsq. assert (i = 2) as -> by nia. discriminate.
Defined.

End TrialFactorFacts.

(** ** [compute] *)

Section ComputeFacts.
Import JS RSA.

(** With [p] and [q] entered as non-zero numbers, step 1 sets [N = P*Q]
    and step 2 is skipped. *)
Lemma resolve_given_pq (st : state) (pv qv : Z) :
  p st = Entered (Int pv) -> q st = Entered (Int qv) ->
  pv <> 0 -> qv <> 0 ->
  resolve st = Normal (Int pv, Int qv, Int (pv * qv)).
Proof.
  intros Hp Hq Hpv Hqv.
  assert (Hp0 : (pv =? 0) = false) by now apply Z.eqb_neq.
  assert (Hq0 : (qv =? 0) = false) by now apply Z.eqb_neq.
  assert (Hn0 : (pv * qv =? 0) = false) by (apply Z.eqb_neq; nia).
  unfold resolve. rewrite Hp, Hq. cbn.
  rewrite Hp0, Hq0. cbn. rewrite Hp0, Hq0, Hn0. reflexivity.
Qed.

End ComputeFacts.

(** ** The claims about [compute] *)

Section ComputeClaims.
Import JS RSA.

(** C2.  Preset L3 gives only [n = 667] and [e = 7].  [compute] factors
    [n] by trial division into [p = 23] and [q = 29] and shows
    [phi(n) = 616]; but [d] comes out as [null]: [7] divides [616], so no
    [d] has [(7 * d) mod 616 = 1]. *)
Theorem compute_L3_no_inverse :
  exists def,
    rsaLevels !! 2%nat = Some def
    /\ key def = "L3"%string
    /\ ask def = "p,q を見つけて d を計算"%string
    /\ trialFactor (Int 667) = Some (Int 23, Int 29)
    /\ out (compute (init def))
       = Some (Values (Int 667) (Int 616) null (Int 23) (Int 29))
    /\ Z.gcd 7 616 = 7
    /\ forall dv, (7 * dv) mod 616 <> 1.
Proof.
  eexists. split; [reflexivity|].
  repeat split; try (vm_compute; reflexivity).
  intros dv H.
  pose proof (Z.div_mod (7 * dv) 616 ltac:(lia)) as Hdm.
  rewrite H in Hdm. lia.
Qed.

(** C7.  [compute] has a second error outcome.  With [p = 17], [q = 23]
    and a non-numeric [e], the key material is resolved, yet [E] is [NaN],
    [egcd(NaN, 352)] recurses at every depth, and the [catch] block shows
    the engine's [RangeError] instead of values. *)
Theorem compute_non_numeric_e :
  let st := {| p := Entered (Int 17); q := Entered (Int 23); n := Blank;
               e := Entered NaN; d := Blank;
               hint := EmptyString; out := None |} in
  resolve st = Normal (Int 17, Int 23, Int 391)
  /\ (forall depth, egcd_rec depth NaN (Int 352) = None)
  /\ modInv (read (e st)) (Int 352) = Throw RangeError
  /\ out (compute st) = Some (Failed RangeError)
  /\ RangeError <> Error missing_key_message.
Proof.
  repeat split; try (vm_compute; reflexivity); try discriminate.
  intros depth. now apply egcd_rec_NaN_l.
Qed.

End ComputeClaims.

(** ** The attack simulator *)

Section AttackFacts.
Import Attack.

(** The true flags of an object are the keys that read as truthy. *)
Lemma elem_of_true_flags (obj : gmap flag bool) (k : flag) :
  k ∈ true_flags obj <-> get obj k = true.
Proof.
  unfold true_flags, get. rewrite elem_of_dom. unfold is_Some. split.
  - intros [b Hb]. apply map_lookup_filter_Some in Hb as [Hk Hb].
    simpl in Hb. subst b. now rewrite Hk.
  - destruct (obj !! k) as [b|] eqn:Hk; simpl; [|discriminate].
    intros ->. exists true. apply map_lookup_filter_Some. now split.
Qed.

(** [list.some(k => obj[k])] holds exactly when the list meets the true
    flags. *)
Lemma some_get_meets (obj : gmap flag bool) (l : list flag) :
  existsb (fun k => get obj k) l = true
  <-> list_to_set l ∩ true_flags obj ≠ (∅ : gset flag).
Proof.
  rewrite existsb_exists. split.
  - intros (k & Hin & Hk) Hempty.
    assert (Hmem : k ∈ (list_to_set l ∩ true_flags obj : gset flag)).
    { apply elem_of_intersection. split.
      - apply elem_of_list_to_set, list_elem_of_In, Hin.
      - now apply elem_of_true_flags. }
    rewrite Hempty in Hmem. now apply not_elem_of_empty in Hmem.
  - intros Hne. apply set_choose_L in Hne as [k Hk].
    apply elem_of_intersection in Hk as [Hl Ht].
    exists k. split.
    + apply elem_of_list_to_set in Hl. now apply list_elem_of_In.
    + now apply elem_of_true_flags.
Qed.

(** C5.  [simulateAttack] is the three-way decision of the specification:
    failure for want of a match when no flag of the method's [exploits] is
    true among the account's vulnerabilities; otherwise failure by a
    control when a flag of [blockedBy] is true among the account's
    controls; otherwise success.  On the demo tables: leak against A
    succeeds, guess against C fails for want of a match, phish against B
    is blocked. *)
Theorem simulateAttack_three_way (account : account) (method : method) :
  simulateAttack account method = resolve_outcome account method
  /\ attack "userA" "leak"
     = Some {| success := true; reason := reason_success |}
  /\ attack "userC" "guess"
     = Some {| success := false; reason := reason_no_match |}
  /\ attack "userB" "phish"
     = Some {| success := false; reason := reason_blocked |}.
Proof.
  split; [|repeat split; vm_compute; reflexivity].
  unfold simulateAttack, resolve_outcome.
  pose proof (some_get_meets (vulns account) (exploits method)) as Hv.
  pose proof (some_get_meets (controls account) (blockedBy method)) as Hc.
  destruct (existsb _ (exploits method)); simpl.
  - destruct (decide _) as [Hempty|_]; [now apply Hv in Hempty|].
    destruct (existsb _ (blockedBy method)).
    + destruct (decide _) as [Hempty|_]; [now apply Hc in Hempty|reflexivity].
    + destruct (decide _) as [_|Hne]; [reflexivity|].
      apply Hc in Hne. discriminate.
  - destruct (decide _) as [_|Hne]; [reflexivity|].
    apply Hv in Hne. discriminate.
Qed.

End AttackFacts.

(** ** The router *)

Section RouterFacts.
Import Router.

Variable BASE_URL : option string.

Abbreviation base := (getNormalizedBasePath BASE_URL).

Lemma nonempty_false (s : string) : nonempty s = false <-> s = EmptyString.
Proof.
  unfold nonempty. rewrite negb_false_iff. apply String.eqb_eq.
Qed.

Lemma append_cons (c : ascii) (s t : string) :
  String.append (String c s) t = String c (String.append s t).
Proof. reflexivity. Qed.

Lemma startsWith_append (pre s : string) :
  startsWith (String.append pre s) pre = true.
Proof.
  induction pre as [|c pre IH]; [reflexivity|].
  rewrite append_cons. simpl. now rewrite Ascii.eqb_refl, IH.
Qed.

Lemma slice_append (pre s : string) :
  slice (String.length pre) (String.append pre s) = s.
Proof.
  induction pre as [|c pre IH]; [reflexivity|].
  rewrite append_cons. exact IH.
Qed.

Lemma append_empty_r (s : string) : String.append s EmptyString = s.
Proof.
  induction s as [|c s IH]; [reflexivity|].
  rewrite append_cons. now f_equal.
Qed.

(** What is left after the leading slashes does not start with one. *)
Lemma strip_slashes_head (s : string) :
  strip_slashes s = EmptyString
  \/ exists c r, strip_slashes s = String c r /\ Ascii.eqb c "/" = false.
Proof.
  induction s as [|c s IH]; simpl; [now left|].
  destruct (Ascii.eqb c "/") eqn:Hc; [exact IH|].
  right. now exists c, s.
Qed.

(** [split] starts with the characters before the first slash. *)
Lemma split_head (s : string) :
  exists segs, split s = until_slash s :: segs.
Proof.
  induction s as [|c s [segs IH]]; simpl; [now exists []|].
  destruct (Ascii.eqb c "/"); [now eexists|].
  rewrite IH. now eexists.
Qed.

(** The two calls of [replace] in [stripBaseFromPath] come after the same
    prefix test. *)
Lemma stripBaseFromPath_prefix (pathname : string) :
  stripBaseFromPath BASE_URL pathname
  = strip_slashes (strip_base_prefix BASE_URL pathname).
Proof.
  unfold stripBaseFromPath, strip_base_prefix.
  destruct (nonempty base) eqn:Hb; simpl.
  - now destruct (startsWith pathname base).
  - apply nonempty_false in Hb. rewrite Hb. now destruct pathname.
Qed.

Lemma has_WORK_KEYS (k : string) : has k = true <-> k ∈ WORK_KEYS.
Proof.
  unfold has, WORK_KEY_SET. rewrite bool_decide_eq_true.
  apply elem_of_list_to_set.
Qed.

(** [parseWorkId] computes the contract of the specification. *)
Lemma parseWorkId_work_of_path (pathname : string) :
  parseWorkId BASE_URL pathname = work_of_path BASE_URL pathname.
Proof.
  unfold parseWorkId, work_of_path, first_segment.
  rewrite stripBaseFromPath_prefix.
  destruct (nonempty pathname) eqn:Hp; simpl.
  - destruct (strip_slashes_head (strip_base_prefix BASE_URL pathname))
      as [Hs | (c & r & Hs & Hc)]; rewrite Hs.
    + reflexivity.
    + assert (Hne : nonempty (String c r) = true) by reflexivity.
      rewrite Hne. simpl negb. cbv iota.
      destruct (split_head (String c r)) as [segs Hsplit].
      rewrite Hsplit. simpl until_slash. rewrite Hc.
      rewrite filter_cons_True by reflexivity.
      change (nonempty (String c (until_slash r))) with true. simpl andb.
      pose proof (has_WORK_KEYS (String c (until_slash r))) as Hhas.
      destruct (has _); destruct (decide _) as [Hin|Hnin];
        try reflexivity.
      * exfalso. apply Hnin, Hhas. reflexivity.
      * apply Hhas in Hin. discriminate.
  - apply nonempty_false in Hp. subst pathname.
    unfold strip_base_prefix.
    now destruct (startsWith EmptyString base), (String.length base).
Qed.

(** A path under the base is judged by what follows the base. *)
Lemma work_of_path_under_base (s : string) :
  work_of_path BASE_URL (String.append base s)
  = if decide (first_segment s ∈ WORK_KEYS)
    then first_segment s else DEFAULT_WORK_ID.
Proof.
  unfold work_of_path, strip_base_prefix.
  now rewrite startsWith_append, slice_append.
Qed.

Lemma work_of_path_known (pathname : string) :
  work_of_path BASE_URL pathname ∈ DEFAULT_WORK_ID :: WORK_KEYS.
Proof.
  unfold work_of_path. destruct (decide _) as [Hin|_].
  - now apply list_elem_of_further.
  - apply list_elem_of_here.
Qed.

Lemma parseWorkId_known (pathname : string) :
  parseWorkId BASE_URL pathname ∈ DEFAULT_WORK_ID :: WORK_KEYS.
Proof. rewrite parseWorkId_work_of_path. apply work_of_path_known. Qed.

End RouterFacts.

(** ** The identifier held by the router *)

Section RouterInvariant.
Import Router.

Variable BASE_URL : option string.
Variable pushState : string -> option string.

(** [navigate] stores its argument only when it is a work key, and nothing
    when [pushState] throws. *)
Lemma navigate_known (nextId : string) (r : route) :
  workId r ∈ DEFAULT_WORK_ID :: WORK_KEYS ->
  workId (navigate BASE_URL pushState nextId r)
  ∈ DEFAULT_WORK_ID :: WORK_KEYS.
Proof.
  intros Hr. unfold navigate. destruct (host r) as [win|]; [|exact Hr].
  assert (Hn : (if has nextId then nextId else DEFAULT_WORK_ID)
               ∈ DEFAULT_WORK_ID :: WORK_KEYS).
  { destruct (has nextId) eqn:Hhas.
    - apply list_elem_of_further. now apply has_WORK_KEYS.
    - apply list_elem_of_here. }
  cbv zeta. destruct (negb _); [|exact Hn].
  destruct (pushState _); [exact Hn|exact Hr].
Qed.

Lemma handlePopstate_known (path : string) (r : route) :
  workId r ∈ DEFAULT_WORK_ID :: WORK_KEYS ->
  workId (handlePopstate BASE_URL path r) ∈ DEFAULT_WORK_ID :: WORK_KEYS.
Proof.
  intros Hr. unfold handlePopstate. destruct (host r) as [win|]; [|exact Hr].
  apply parseWorkId_known.
Qed.

(** For the four identifiers, [<main>] holds works only. *)
Lemma main_known (activeWorkId : string) :
  activeWorkId ∈ DEFAULT_WORK_ID :: WORK_KEYS ->
  NotFoundSection ∉ main activeWorkId.
Proof.
  intros Hin Hnf.
  repeat (apply elem_of_cons in Hin as [->|Hin]);
    try (vm_compute in Hnf;
         repeat (apply elem_of_cons in Hnf as [Hnf|Hnf]; [discriminate|]);
         now apply not_elem_of_nil in Hnf).
  now apply not_elem_of_nil in Hin.
Qed.

(** C9.  Every work identifier the router of [App] ever holds is one of
    ["all"], ["1"], ["2"], ["3"]: the initial derivation, every popstate
    re-derivation and every [navigate] call keep it so; hence the
    not-found section is never rendered. *)
Theorem route_workId_known (r : route) :
  reachable BASE_URL pushState r ->
  workId r ∈ ["all"; "1"; "2"; "3"]
  /\ NotFoundSection ∉ main (workId r).
Proof.
  intros Hr.
  assert (Hknown : workId r ∈ DEFAULT_WORK_ID :: WORK_KEYS).
  { induction Hr as [w | r ev Hr IH].
    - destruct w as [win|]; simpl.
      + apply parseWorkId_known.
      + apply list_elem_of_here.
    - destruct ev as [path | nextId]; simpl.
      + now apply handlePopstate_known.
      + now apply navigate_known. }
  split; [exact Hknown | now apply main_known].
Qed.

End RouterInvariant.

(** A session under the base [/app/], in a browser whose [pushState]
    takes these paths as they are: opened at an unknown path, then a
    [navigate] with an unknown identifier, then back to [/app/2/x]. *)
Lemma route_workId_known_witness :
  let r := Router.step (Some "/app/") Some
             (Router.step (Some "/app/") Some
                (Router.App_route (Some "/app/")
                   (Some {| Router.pathname := "/app/zzz";
                            Router.pushed := [] |}))
                (Router.Navigate "9"))
             (Router.Popstate "/app/2/x") in
  Router.workId r = "2"%string
  /\ Router.workId r ∈ ["all"; "1"; "2"; "3"]%string
  /\ Router.NotFoundSection ∉ Router.main (Router.workId r).
Proof.
  intros r. split; [vm_compute; reflexivity|].
  apply (route_workId_known (Some "/app/"%string) Some r).
  apply Router.reachable_step, Router.reachable_step, Router.reachable_mount.
Defined.

(** * Further properties of the RSA lab *)

Section TrialFactorMore.
Import JS RSA.

(** The two primes of preset L3. *)
Lemma prime_23 : Z.prime 23.
Proof.
  split; [lia|]. intros j Hj Hdiv.
  apply Z.mod_divide in Hdiv; [|lia].
  destruct j as [|pj|pj]; try lia.
  do 5 (try (destruct pj as [pj|pj|]; try lia; try discriminate)).
Qed.

Lemma prime_29 : Z.prime 29.
Proof.
  split; [lia|]. intros j Hj Hdiv.
  apply Z.mod_divide in Hdiv; [|lia].
  destruct j as [|pj|pj]; try lia.
  do 5 (try (destruct pj as [pj|pj|]; try lia; try discriminate)).
Qed.

(** The smallest divisor of a product of two primes is the smaller
    prime. *)
Lemma trialFactor_two_primes (pv qv : Z) :
  Z.prime pv -> Z.prime qv -> pv <= qv ->
  trialFactor (Int (pv * qv)) = Some (Int pv, Int qv).
Proof.
  intros Hp Hq Hle.
  pose proof (Z.prime_ge_2 pv Hp) as Hp2.
  pose proof (trialFactor_from_spec (pv * qv) 2 ltac:(lia)) as Hspec.
  simpl. destruct (trialFactor_from (pv * qv) 2) as [[P Q]|].
  - destruct Hspec as (dv & -> & -> & Hd2 & Hsq & Hdiv & Hmin).
    assert (Hdp : dv <= pv).
    { destruct (Z_le_gt_dec dv pv) as [|Hgt]; [assumption|].
      exfalso. apply (Hmin pv); [lia|].
      rewrite Z.mul_comm. apply Z.mod_mul. lia. }
    assert (Heq : dv = pv).
    { destruct (Z.eq_dec dv pv) as [|Hne]; [assumption|]. exfalso.
      apply Z.mod_divide in Hdiv; [|lia].
      assert (Hrel : Z.gcd dv pv = 1).
      { rewrite Z.gcd_comm. apply Z.coprime_prime_l; [assumption|].
        intros Hpd. apply Z.divide_pos_le in Hpd; lia. }
      pose proof (Z.gauss dv pv qv Hdiv Hrel) as Hdq.
      apply Z.divide_prime_r in Hdq; [|assumption]. lia. }
    subst dv. do 3 f_equal. rewrite Z.mul_comm. apply Z.div_mul. lia.
  - exfalso. apply (Hspec pv); [lia | nia |].
    rewrite Z.mul_comm. apply Z.mod_mul. lia.
Qed.

(** X5.  For primes [p <= q], [trialFactor(p*q)] returns [[p, q]]: trial
    division recovers the two factors of an RSA modulus, smaller first. *)
Theorem trialFactor_semiprime (pv qv : Z) :
  Z.prime pv -> Z.prime qv -> pv <= qv ->
  trialFactor (Int (pv * qv)) = Some (Int pv, Int qv).
Proof. apply trialFactor_two_primes. Qed.

(** The modulus of preset L3. *)
Lemma trialFactor_semiprime_witness :
  trialFactor (Int (23 * 29)) = Some (Int 23, Int 29).
Proof.
  apply (trialFactor_semiprime 23 29); [exact prime_23 | exact prime_29 | lia].
Defined.

(** Without a factor found, a state that lacks [p] or [q] stays
    unresolved. *)
Lemma resolve_unfactored (st : state) (nv : num) :
  n st = Entered nv -> trialFactor nv = None ->
  truthy (read (p st)) && truthy (read (q st)) = false ->
  resolve st = Throw (Error missing_key_message).
Proof.
  intros Hn Hnull Hpq. unfold resolve. rewrite Hn, Hpq. simpl.
  apply andb_false_iff in Hpq.
  assert (Hor : negb (truthy (read (p st))) || negb (truthy (read (q st)))
                = true).
  { destruct Hpq as [-> | ->]; simpl; [reflexivity|apply orb_true_r]. }
  rewrite Hor. simpl. destruct (truthy_num nv).
  - rewrite Hnull. simpl. now rewrite Hor.
  - simpl. rewrite Hor. reflexivity.
Qed.

(** X6.  For a prime [n], [trialFactor(n)] returns [null]; [compute] with
    that [n] and with [p] or [q] missing then shows the missing-key message,
    whatever [e] holds. *)
Theorem compute_prime_modulus (st : state) (nv : Z) :
  Z.prime nv ->
  n st = Entered (Int nv) ->
  truthy (read (p st)) && truthy (read (q st)) = false ->
  trialFactor (Int nv) = None
  /\ out (compute st) = Some (Failed (Error missing_key_message)).
Proof.
  intros Hprime Hn Hpq.
  pose proof (Z.prime_ge_2 nv Hprime) as Hn2.
  assert (Hnull : trialFactor (Int nv) = None).
  { pose proof (trialFactor_from_spec nv 2 ltac:(lia)) as Hspec. simpl.
    destruct (trialFactor_from nv 2) as [[P Q]|]; [|reflexivity].
    destruct Hspec as (dv & _ & _ & Hd2 & Hsq & Hdiv & _).
    apply Z.mod_divide in Hdiv; [|lia].
    apply Z.divide_prime_r in Hdiv; [|assumption]. nia. }
  split; [assumption|].
  unfold compute, compute_try.
  now rewrite (resolve_unfactored st (Int nv) Hn Hnull Hpq).
Qed.

(** Only [n = 23] and [e = 7] entered. *)
Lemma compute_prime_modulus_witness :
  exists st,
    n st = Entered (Int 23)
    /\ trialFactor (Int 23) = None
    /\ out (compute st) = Some (Failed (Error missing_key_message)).
Proof.
  exists {| p := Blank; q := Blank; n := Entered (Int 23);
            e := Entered (Int 7); d := Blank;
            hint := EmptyString; out := None |}.
  split; [reflexivity|].
  apply (compute_prime_modulus _ 23); [exact prime_23 | reflexivity..].
Defined.

End TrialFactorMore.

Section ComputeMore.
Import JS RSA.

(** With a factorisation found, a state that lacks [p] or [q] takes both
    from it and keeps [n]. *)
Lemma resolve_factored (st : state) (nv av bv : Z) :
  n st = Entered (Int nv) ->
  trialFactor (Int nv) = Some (Int av, Int bv) ->
  truthy (read (p st)) && truthy (read (q st)) = false ->
  nv <> 0 -> av <> 0 -> bv <> 0 ->
  resolve st = Normal (Int av, Int bv, Int nv).
Proof.
  intros Hn Htf Hpq Hnv Hav Hbv. unfold resolve. rewrite Hn, Hpq. simpl.
  apply andb_false_iff in Hpq.
  assert (Hor : negb (truthy (read (p st))) || negb (truthy (read (q st)))
                = true).
  { destruct Hpq as [-> | ->]; simpl; [reflexivity|apply orb_true_r]. }
  rewrite Hor. simpl in Htf.
  assert (Hn0 : (nv =? 0) = false) by now apply Z.eqb_neq.
  assert (Ha0 : (av =? 0) = false) by now apply Z.eqb_neq.
  assert (Hb0 : (bv =? 0) = false) by now apply Z.eqb_neq.
  rewrite Hn0. simpl. rewrite Htf. simpl. now rewrite Ha0, Hb0.
Qed.

(** [compute] shows what the resolved key and [e] determine. *)
Lemma compute_out_congr (st1 st2 : state) :
  resolve st1 = resolve st2 -> e st1 = e st2 ->
  out (compute st1) = out (compute st2).
Proof.
  intros Hres He. unfold compute, compute_try. simpl. now rewrite Hres, He.
Qed.

(** X9.  For primes [p <= q], entering only [n = p*q] (with [p] or [q]
    missing) makes [compute] show exactly what it shows when [p] and [q]
    are entered, for the same [e]: trial factoring followed by the
    derivation agrees with the direct derivation. *)
Theorem compute_from_modulus (st1 st2 : state) (pv qv : Z) :
  Z.prime pv -> Z.prime qv -> pv <= qv ->
  truthy (read (p st1)) && truthy (read (q st1)) = false ->
  n st1 = Entered (Int (pv * qv)) ->
  p st2 = Entered (Int pv) -> q st2 = Entered (Int qv) ->
  e st1 = e st2 ->
  out (compute st1) = out (compute st2).
Proof.
  intros Hp Hq Hle Hmiss Hn Hp2 Hq2 He.
  pose proof (Z.prime_ge_2 pv Hp). pose proof (Z.prime_ge_2 qv Hq).
  apply compute_out_congr; [|assumption].
  rewrite (resolve_given_pq st2 pv qv Hp2 Hq2) by lia.
  apply resolve_factored; try assumption; try lia.
  now apply trialFactor_two_primes.
Qed.

(** Preset L3 as shipped, against the same preset with [p = 23] and
    [q = 29] filled in. *)
Lemma compute_from_modulus_witness :
  out (compute {| p := Blank; q := Blank; n := Entered (Int (23 * 29));
                  e := Entered (Int 7); d := Blank;
                  hint := EmptyString; out := None |})
  = out (compute {| p := Entered (Int 23); q := Entered (Int 29);
                    n := Blank; e := Entered (Int 7); d := Blank;
                    hint := EmptyString; out := None |}).
Proof.
  apply (compute_from_modulus _ _ 23 29);
    [exact prime_23 | exact prime_29 | lia | reflexivity..].
Defined.

End ComputeMore.

(** * Further properties of the router *)

Section RouterMore.
Import Router.

Variable BASE_URL : option string.

Abbreviation nbase := (getNormalizedBasePath BASE_URL).

(** The normalized base is empty or starts with a slash. *)
Lemma base_normal_form :
  nbase = EmptyString \/ startsWith nbase "/" = true.
Proof.
  unfold getNormalizedBasePath.
  destruct (endsWith (default "/"%string BASE_URL) "/");
    match goal with
    | |- context [nonempty ?w] =>
        destruct (nonempty w) eqn:Hw; cbn [negb]; [|now left];
        destruct (startsWith w "/") eqn:Hs; [right; exact Hs|right; reflexivity]
    end.
Qed.

Lemma buildPath_work (k : string) :
  String.eqb k DEFAULT_WORK_ID = false ->
  buildPathFromWorkId BASE_URL k = String.append nbase (String "/" k).
Proof.
  intros Hk. unfold buildPathFromWorkId. rewrite Hk.
  destruct (nonempty nbase) eqn:Hb; [reflexivity|].
  apply nonempty_false in Hb. now rewrite Hb.
Qed.

Lemma parse_build_default :
  parseWorkId BASE_URL (buildPathFromWorkId BASE_URL DEFAULT_WORK_ID)
  = DEFAULT_WORK_ID.
Proof.
  unfold buildPathFromWorkId. simpl String.eqb. cbv iota.
  rewrite parseWorkId_work_of_path.
  destruct (nonempty nbase) eqn:Hb.
  - rewrite <- (append_empty_r nbase).
    now rewrite work_of_path_under_base.
  - apply nonempty_false in Hb.
    replace "/"%string with (String.append nbase "/") by now rewrite Hb.
    now rewrite work_of_path_under_base.
Qed.

Lemma parse_build (k : string) :
  k ∈ DEFAULT_WORK_ID :: WORK_KEYS ->
  parseWorkId BASE_URL (buildPathFromWorkId BASE_URL k) = k.
Proof.
  intros Hk. apply elem_of_cons in Hk as [->|Hk]; [apply parse_build_default|].
  repeat (apply elem_of_cons in Hk as [->|Hk]);
    try (rewrite buildPath_work by reflexivity;
         rewrite parseWorkId_work_of_path, work_of_path_under_base;
         vm_compute; reflexivity).
  now apply not_elem_of_nil in Hk.
Qed.

(** X10.  Building the path of an identifier and parsing it back gives the
    identifier, for each of ["all"], ["1"], ["2"], ["3"] and every base. *)
Theorem parseWorkId_buildPathFromWorkId (k : string) :
  k ∈ ["all"; "1"; "2"; "3"] ->
  parseWorkId BASE_URL (buildPathFromWorkId BASE_URL k) = k.
Proof. apply parse_build. Qed.

(** X14.  [buildPathFromWorkId] always yields a path that starts with a
    slash, whatever the identifier and the base. *)
Theorem buildPathFromWorkId_absolute (workId : string) :
  startsWith (buildPathFromWorkId BASE_URL workId) "/" = true.
Proof.
  unfold buildPathFromWorkId.
  destruct base_normal_form as [Hb|Hb].
  - rewrite Hb. simpl. now destruct (String.eqb workId DEFAULT_WORK_ID).
  - destruct (nonempty nbase) eqn:Hn.
    + destruct (String.eqb workId DEFAULT_WORK_ID); [assumption|].
      destruct nbase as [|c rest]; [discriminate|].
      rewrite append_cons. exact Hb.
    + now destruct (String.eqb workId DEFAULT_WORK_ID).
Qed.

(** X17.  Segments after the first are ignored: under the base, a path
    [/k/rest] with [k] a work key parses to [k], whatever [rest] is. *)
Theorem parseWorkId_ignores_rest (k rest : string) :
  k ∈ WORK_KEYS ->
  parseWorkId BASE_URL
    (String.append nbase (String "/" (String.append k (String "/" rest))))
  = k.
Proof.
  intros Hk. rewrite parseWorkId_work_of_path, work_of_path_under_base.
  repeat (apply elem_of_cons in Hk as [->|Hk]);
    try (vm_compute; reflexivity).
  now apply not_elem_of_nil in Hk.
Qed.

End RouterMore.

(** Under the base [/app/], the path of work [2] is [/app/2]. *)
Lemma parseWorkId_buildPathFromWorkId_witness :
  Router.buildPathFromWorkId (Some "/app/") "2" = "/app/2"%string
  /\ Router.parseWorkId (Some "/app/")
       (Router.buildPathFromWorkId (Some "/app/") "2") = "2"%string.
Proof.
  split; [vm_compute; reflexivity|].
  apply (parseWorkId_buildPathFromWorkId (Some "/app/"%string) "2").
  vm_compute. apply list_elem_of_further, list_elem_of_further,
    list_elem_of_here.
Defined.

(** [/app/2/x/y] under the base [/app/]. *)
Lemma parseWorkId_ignores_rest_witness :
  Router.parseWorkId (Some "/app/")
    (String.append (Router.getNormalizedBasePath (Some "/app/"))
       (String "/" (String.append "2" (String "/" "x/y"))))
  = "2"%string.
Proof.
  apply (parseWorkId_ignores_rest (Some "/app/"%string) "2" "x/y").
  apply list_elem_of_further, list_elem_of_here.
Defined.

(** * Further properties of the attack simulator *)

Section AttackMore.
Import Attack.

Lemma existsb_mono {A : Type} (f h : A -> bool) (l : list A) :
  (forall k, f k = true -> h k = true) ->
  existsb f l = true -> existsb h l = true.
Proof.
  intros Hfh. rewrite !existsb_exists. intros (k & Hin & Hk).
  exists k. split; [assumption|now apply Hfh].
Qed.

(** X18.  Hardening an account never helps the attacker: if every true
    vulnerability of [strong] is one of [weak] and every true control of
    [weak] is one of [strong], an attack that succeeds against [strong]
    succeeds against [weak] with the same method. *)
Theorem simulateAttack_monotone (weak strong : account) (method : method) :
  (forall v, get (vulns strong) v = true -> get (vulns weak) v = true) ->
  (forall b, get (controls weak) b = true -> get (controls strong) b = true) ->
  success (simulateAttack strong method) = true ->
  success (simulateAttack weak method) = true.
Proof.
  intros Hv Hc. unfold simulateAttack.
  destruct (existsb (fun v => get (vulns strong) v) (exploits method))
    eqn:Hhit; simpl; [|discriminate].
  rewrite (existsb_mono _ (fun v => get (vulns weak) v) _ Hv Hhit). simpl.
  destruct (existsb (fun b => get (controls strong) b) (blockedBy method))
    eqn:Hblock; simpl; [discriminate|]. intros _.
  destruct (existsb (fun b => get (controls weak) b) (blockedBy method))
    eqn:Hblock'; simpl; [|reflexivity].
  rewrite (existsb_mono _ (fun b => get (controls strong) b) _ Hc Hblock')
    in Hblock. discriminate.
Qed.

(** X19.  The attack button acts on the selected rows: for every account
    of [demoAccounts] and every method of [attackMethods], looking them up
    by [id] and [key] finds them, and the result is [simulateAttack] of the
    two. *)
Theorem attack_selected (target : account) (method : method) :
  target ∈ demoAccounts -> method ∈ attackMethods ->
  find_account (id target) = Some target
  /\ find_method (key method) = Some method
  /\ attack (id target) (key method) = Some (simulateAttack target method).
Proof.
  intros Ht Hm. unfold demoAccounts in Ht. unfold attackMethods in Hm.
  repeat (apply elem_of_cons in Ht as [->|Ht]);
    try (now apply not_elem_of_nil in Ht);
    repeat (apply elem_of_cons in Hm as [->|Hm]);
    try (now apply not_elem_of_nil in Hm);
    repeat split; vm_compute; reflexivity.
Qed.

End AttackMore.

(** Account B is account A hardened (fewer weaknesses, MFA added), and
    guessing succeeds against B; so it succeeds against A. *)
Lemma simulateAttack_monotone_witness :
  exists weak strong method,
    Attack.find_account "userA" = Some weak
    /\ Attack.find_account "userB" = Some strong
    /\ Attack.find_method "guess" = Some method
    /\ Attack.success (Attack.simulateAttack strong method) = true
    /\ Attack.success (Attack.simulateAttack weak method) = true.
Proof.
  pose (dflt := {| Attack.id := EmptyString; Attack.label := EmptyString;
                   Attack.username := EmptyString;
                   Attack.password := EmptyString;
                   Attack.vulns := ∅; Attack.controls := ∅ |}).
  exists (nth 0 Attack.demoAccounts dflt), (nth 1 Attack.demoAccounts dflt),
         (nth 2 Attack.attackMethods
            {| Attack.key := EmptyString; Attack.name := EmptyString;
               Attack.description := EmptyString;
               Attack.exploits := []; Attack.blockedBy := [] |}).
  split; [reflexivity|]. split; [reflexivity|]. split; [reflexivity|].
  split; [vm_compute; reflexivity|].
  apply (simulateAttack_monotone _ (nth 1 Attack.demoAccounts dflt)).
  - intros v. destruct v; vm_compute; intros H; try reflexivity; discriminate H.
  - intros b. destruct b; vm_compute; intros H; discriminate H.
  - vm_compute. reflexivity.
Defined.

(** Account B and the guessing method. *)
Lemma attack_selected_witness :
  exists target method,
    Attack.id target = "userB"%string /\ Attack.key method = "guess"%string
    /\ Attack.find_account (Attack.id target) = Some target
    /\ Attack.find_method (Attack.key method) = Some method
    /\ Attack.attack (Attack.id target) (Attack.key method)
       = Some (Attack.simulateAttack target method).
Proof.
  exists (nth 1 Attack.demoAccounts
            {| Attack.id := EmptyString; Attack.label := EmptyString;
               Attack.username := EmptyString;
               Attack.password := EmptyString;
               Attack.vulns := ∅; Attack.controls := ∅ |}),
         (nth 2 Attack.attackMethods
            {| Attack.key := EmptyString; Attack.name := EmptyString;
               Attack.description := EmptyString;
               Attack.exploits := []; Attack.blockedBy := [] |}).
  split; [reflexivity|]. split; [reflexivity|].
  apply attack_selected.
  - apply list_elem_of_further, list_elem_of_here.
  - do 2 apply list_elem_of_further. apply list_elem_of_here.
Defined.

(** * The outcomes of [compute], and the order of the factors *)

Section OutcomesMore.
Import JS RSA.

(** X21.  Whatever [trialFactor] returns is an ordered factorisation: for
    a result [[p, q]], [2 <= p <= q] and [p*q = n]. *)
Theorem trialFactor_ordered (nv : Z) (P Q : num) :
  trialFactor (Int nv) = Some (P, Q) ->
  exists pv qv, P = Int pv /\ Q = Int qv /\ 2 <= pv <= qv /\ pv * qv = nv.
Proof.
  simpl. intros H.
  pose proof (trialFactor_from_spec nv 2 ltac:(lia)) as Hspec.
  rewrite H in Hspec.
  destruct Hspec as (pv & -> & -> & Hp2 & Hsq & Hdiv & _).
  exists pv, (nv / pv).
  pose proof (Z.div_mod nv pv ltac:(lia)) as Hdm.
  repeat split; try lia. nia.
Qed.

(** [trialFactor(91)] is [[7, 13]]. *)
Lemma trialFactor_ordered_witness :
  exists pv qv,
    Int 7 = Int pv /\ Int 13 = Int qv /\ 2 <= pv <= qv /\ pv * qv = 91.
Proof.
  apply (trialFactor_ordered 91 (Int 7) (Int 13)). vm_compute. reflexivity.
Defined.

End OutcomesMore.

(** * The RSA lab on doubles *)

(** ** Where the arithmetic of doubles is exact *)

Section DoubleArithmetic.
Import JS64.

(** Integers up to [2^53] in magnitude are doubles. *)
Lemma round_small (z : Z) : Z.abs z <= 2 ^ 53 -> round z = Fin z.
Proof.
  intros H. unfold round.
  destruct (Z.leb_spec (Z.abs z) (2 ^ 53)); [reflexivity|lia].
Qed.

(** What rounding returns is a double. *)
Lemma round_representable (z z' : Z) : round z = Fin z' -> representable z'.
Proof.
  unfold representable, round at 1.
  destruct (Z.leb_spec (Z.abs z) (2 ^ 53)) as [Hs|Hbig].
  { intros H. injection H as <-. now apply round_small. }
  cbv zeta.
  set (a := Z.abs z). set (e := Z.log2 a - 52).
  pose proof (Z.log2_spec a ltac:(lia)) as [Hlo Hhi].
  assert (He : 1 <= e).
  { unfold e. assert (53 <= Z.log2 a); [|lia].
    apply Z.log2_le_pow2; lia. }
  assert (Hpe : 0 < 2 ^ e) by (apply Z.pow_pos_nonneg; lia).
  assert (Hq : 2 ^ 52 <= a / 2 ^ e < 2 ^ 53).
  { replace (Z.log2 a) with (52 + e) in Hlo by (unfold e; lia).
    replace (Z.succ (Z.log2 a)) with (53 + e) in Hhi by (unfold e; lia).
    rewrite Z.pow_add_r in Hlo, Hhi by lia. split.
    - apply Z.div_le_lower_bound; lia.
    - apply Z.div_lt_upper_bound; lia. }
  set (q := a / 2 ^ e) in *.
  set (q' := if (2 ^ (e - 1) <? a mod 2 ^ e)
                || ((a mod 2 ^ e =? 2 ^ (e - 1)) && Z.odd q)
             then q + 1 else q).
  assert (Hq' : 2 ^ 52 <= q' <= 2 ^ 53) by (unfold q'; destruct (_ || _); lia).
  destruct (Z.leb_spec (2 ^ 1024) (q' * 2 ^ e)) as [Hov|Hfin].
  { now destruct (z <? 0). }
  intros H. injection H as <-.
  assert (Hv : Z.abs (Z.sgn z * (q' * 2 ^ e)) = q' * 2 ^ e).
  { rewrite Z.abs_mul, (Z.abs_eq (q' * 2 ^ e)) by nia.
    destruct z; unfold a in *; simpl in *; lia. }
  assert (Hsgn : Z.sgn (Z.sgn z * (q' * 2 ^ e)) = Z.sgn z).
  { assert (Hpos : 0 < q' * 2 ^ e) by nia.
    destruct z as [|zp|zp].
    - unfold a in Hbig. simpl in Hbig. lia.
    - change (Z.sgn (Z.pos zp)) with 1. apply Z.sgn_pos. lia.
    - change (Z.sgn (Z.neg zp)) with (-1). apply Z.sgn_neg. lia. }
  unfold round. rewrite Hv.
  destruct (Z.leb_spec (q' * 2 ^ e) (2 ^ 53)); [reflexivity|].
  cbv zeta. rewrite Hsgn.
  destruct (Z.eq_dec q' (2 ^ 53)) as [Heq|Hne].
  - assert (Htwo : q' * 2 ^ e = 2 ^ 52 * 2 ^ (e + 1)).
    { rewrite Heq, Z.pow_add_r by lia. lia. }
    assert (Hlog : Z.log2 (q' * 2 ^ e) = 52 + (e + 1)).
    { rewrite Htwo, <- Z.pow_add_r by lia. apply Z.log2_pow2. lia. }
    rewrite Hlog. replace (52 + (e + 1) - 52) with (e + 1) by ring.
    replace (e + 1 - 1) with e by ring.
    rewrite !Htwo in *.
    rewrite Z.div_mul, Z.mod_mul by (apply Z.pow_nonzero; lia).
    destruct (Z.ltb_spec (2 ^ e) 0) as [?|_]; [lia|].
    destruct (Z.eqb_spec 0 (2 ^ e)) as [?|_]; [lia|]. simpl orb. cbv iota.
    destruct (Z.leb_spec (2 ^ 1024) (2 ^ 52 * 2 ^ (e + 1))); [lia|reflexivity].
  - assert (Hlog : Z.log2 (q' * 2 ^ e) = 52 + e).
    { rewrite Z.log2_mul_pow2 by lia.
      assert (Z.log2 q' = 52); [|lia].
      apply Z.log2_unique; lia. }
    rewrite Hlog. replace (52 + e - 52) with e by ring.
    rewrite Z.div_mul, Z.mod_mul by lia.
    assert (Hh : 0 < 2 ^ (e - 1)) by (apply Z.pow_pos_nonneg; lia).
    destruct (Z.ltb_spec (2 ^ (e - 1)) 0) as [?|_]; [lia|].
    destruct (Z.eqb_spec 0 (2 ^ (e - 1))) as [?|_]; [lia|]. simpl orb.
    cbv iota.
    destruct (Z.leb_spec (2 ^ 1024) (q' * 2 ^ e)); [lia|reflexivity].
Qed.

Lemma add_small (u v : Z) :
  Z.abs (u + v) <= 2 ^ 53 -> add (Fin u) (Fin v) = Fin (u + v).
Proof. intros H. simpl. now apply round_small. Qed.

Lemma sub_small (u v : Z) :
  Z.abs (u - v) <= 2 ^ 53 -> sub (Fin u) (Fin v) = Fin (u - v).
Proof.
  intros H. unfold sub. simpl. rewrite round_small; [reflexivity|].
  now replace (u + - v) with (u - v) by ring.
Qed.

Lemma mul_small (u v : Z) :
  Z.abs (u * v) <= 2 ^ 53 -> mul (Fin u) (Fin v) = Fin (u * v).
Proof. intros H. simpl. now apply round_small. Qed.

(** The scaling of [floor_quotient] brings the quotient to at least
    [2^52]. *)
Lemma floor_quotient_scale (u v : Z) :
  0 < u < 2 ^ 53 -> 0 < v < 2 ^ 53 ->
  let k := Z.log2 u - Z.log2 v in
  let reaches := if 0 <=? k then v * 2 ^ k <=? u else v <=? u * 2 ^ (- k) in
  let lg := if reaches then k else k - 1 in
  - 53 <= lg <= 52 /\ v * 2 ^ 52 <= u * 2 ^ (52 - lg).
Proof.
  intros Hu Hv k reaches lg.
  pose proof (Z.log2_spec u ltac:(lia)) as [Hu1 Hu2].
  pose proof (Z.log2_spec v ltac:(lia)) as [Hv1 Hv2].
  pose proof (Z.log2_nonneg u) as Hlu. pose proof (Z.log2_nonneg v) as Hlv.
  assert (Hlu' : Z.log2 u < 53) by (apply Z.log2_lt_pow2; lia).
  assert (Hlv' : Z.log2 v < 53) by (apply Z.log2_lt_pow2; lia).
  assert (Hk : - 52 <= k <= 52) by (unfold k; lia).
  assert (Hlow : v * 2 ^ 52 <= u * 2 ^ (52 - (k - 1))).
  { replace (52 - (k - 1)) with (53 - k) by ring.
    assert (H1 : 2 ^ Z.log2 u * 2 ^ (53 - k) = 2 ^ Z.succ (Z.log2 v) * 2 ^ 52).
    { rewrite <- !Z.pow_add_r by lia. f_equal. unfold k. lia. }
    assert (H2 : 0 < 2 ^ (53 - k)) by (apply Z.pow_pos_nonneg; lia).
    nia. }
  unfold lg, reaches. destruct (Z.leb_spec 0 k) as [Hk0|Hk0].
  - destruct (Z.leb_spec (v * 2 ^ k) u) as [Hr|Hr]; [|split; [lia|exact Hlow]].
    split; [lia|].
    replace (2 ^ 52) with (2 ^ k * 2 ^ (52 - k))
      by (rewrite <- Z.pow_add_r by lia; f_equal; lia).
    assert (H2 : 0 < 2 ^ (52 - k)) by (apply Z.pow_pos_nonneg; lia).
    nia.
  - destruct (Z.leb_spec v (u * 2 ^ (- k))) as [Hr|Hr];
      [|split; [lia|exact Hlow]].
    split; [lia|].
    replace (2 ^ (52 - k)) with (2 ^ (- k) * 2 ^ 52)
      by (rewrite <- Z.pow_add_r by lia; f_equal; lia).
    nia.
Qed.

(** Scaling up, rounding to the nearest integer and scaling back does not
    reach the next integer: the floor is the floor of the exact quotient. *)
Lemma scaled_floor (u v S m : Z) :
  0 <= u -> 0 < v -> 0 < S -> v < 2 * S ->
  (m = u * S / v \/ (m = u * S / v + 1 /\ v <= 2 * ((u * S) mod v))) ->
  m / S = u / v.
Proof.
  intros Hu Hv HS HvS Hm.
  pose proof (Z.div_mod u v ltac:(lia)) as Huv.
  pose proof (Z.mod_pos_bound u v Hv) as Hrr.
  set (q := u / v) in *. set (rr := u mod v) in *.
  pose proof (Z.div_mod (rr * S) v ltac:(lia)) as Ht.
  pose proof (Z.mod_pos_bound (rr * S) v Hv) as Hr'.
  set (t := rr * S / v) in *. set (r' := (rr * S) mod v) in *.
  assert (Ht0 : 0 <= t) by (apply Z.div_pos; nia).
  assert (HtS : t < S).
  { apply Z.div_lt_upper_bound; [lia|nia]. }
  assert (Hm0 : u * S / v = q * S + t).
  { symmetry. apply (Z.div_unique _ _ _ r'); [lia|]. nia. }
  assert (Hr : (u * S) mod v = r').
  { symmetry. apply (Z.mod_unique _ _ (q * S + t)); [lia|]. nia. }
  symmetry. destruct Hm as [-> | [-> Hup]].
  - apply (Z.div_unique _ _ _ t); [lia|]. rewrite Hm0. ring.
  - rewrite Hr in Hup.
    assert (Hlt : t + 1 < S).
    { destruct (Z_lt_le_dec (t + 1) S) as [|Hge]; [assumption|].
      exfalso. assert (t = S - 1) as Heq by lia.
      assert (v - rr >= 1) by lia. nia. }
    apply (Z.div_unique _ _ _ (t + 1)); [lia|]. rewrite Hm0. ring.
Qed.

(** Below [2^53] the floor of the rounded quotient is the floor of the
    quotient: [Math.floor(a / b)] is the integer division there. *)
Lemma floor_quotient_exact (u v : Z) :
  0 <= u < 2 ^ 53 -> 0 < v < 2 ^ 53 -> floor_quotient u v = u / v.
Proof.
  intros Hu Hv. unfold floor_quotient.
  rewrite (Z.abs_eq u), (Z.abs_eq v) by lia.
  destruct (Z.eqb_spec u 0) as [->|Hu0]; [reflexivity|].
  destruct (floor_quotient_scale u v ltac:(lia) Hv) as [Hlg Hscale].
  cbv zeta in Hlg, Hscale |- *.
  set (lg := if (if 0 <=? Z.log2 u - Z.log2 v
                 then v * 2 ^ (Z.log2 u - Z.log2 v) <=? u
                 else v <=? u * 2 ^ (- (Z.log2 u - Z.log2 v)))
             then Z.log2 u - Z.log2 v else Z.log2 u - Z.log2 v - 1) in *.
  rewrite (Z.max_l (lg - 52) (- 1074)) by lia.
  rewrite (Z.max_l 0 (lg - 52)) by lia.
  replace (- (lg - 52)) with (52 - lg) by ring.
  rewrite (Z.max_r 0 (52 - lg)) by lia.
  change (2 ^ 0) with 1. rewrite Z.mul_1_r.
  destruct (Z.ltb_spec u 0) as [?|_]; [lia|].
  destruct (Z.ltb_spec v 0) as [?|_]; [lia|]. cbn [xorb].
  assert (HS : 0 < 2 ^ (52 - lg)) by (apply Z.pow_pos_nonneg; lia).
  set (S := 2 ^ (52 - lg)) in *.
  assert (HvS : v < 2 * S) by nia.
  set (m0 := u * S / v). set (r := (u * S) mod v).
  assert (Hfloor :
    (if (v <? 2 * r) || ((2 * r =? v) && Z.odd m0) then m0 + 1 else m0) / S
    = u / v).
  { apply scaled_floor; try lia.
    destruct ((v <? 2 * r) || ((2 * r =? v) && Z.odd m0)) eqn:Hc;
      [right; split; [reflexivity|] | left; reflexivity].
    apply orb_true_iff in Hc as [Hc|Hc].
    - apply Z.ltb_lt in Hc. fold r. lia.
    - apply andb_true_iff in Hc as [Hc _]. apply Z.eqb_eq in Hc. fold r. lia. }
  destruct (Z.leb_spec 0 (lg - 52)) as [He|He].
  - assert (lg = 52) as Hlg52 by lia.
    assert (HS1 : S = 1) by (unfold S; rewrite Hlg52; reflexivity).
    rewrite HS1 in Hfloor. rewrite Z.div_1_r in Hfloor.
    rewrite Hlg52. change (2 ^ (52 - 52)) with 1. rewrite Z.mul_1_r.
    exact Hfloor.
  - exact Hfloor.
Qed.

Lemma floor_div_exact (u v : Z) :
  0 <= u < 2 ^ 53 -> 0 < v < 2 ^ 53 ->
  floor_div (Fin u) (Fin v) = Fin (u / v).
Proof.
  intros Hu Hv. simpl. destruct (Z.eqb_spec v 0) as [?|_]; [lia|].
  now rewrite floor_quotient_exact.
Qed.

End DoubleArithmetic.

(** ** [egcd] on doubles *)

Section Egcd64Facts.
Import JS64 RSA64.

(** On integers below [2^53], whatever [egcd] returns is exact: [g] is the
    gcd, [x] and [y] are Bezout coefficients, and no step of the recursion
    leaves the range where sums, products and floored quotients of doubles
    are exact. *)
Lemma egcd64_rec_spec (depth : nat) (a b : Z) (r : bezout) :
  0 <= a < 2 ^ 53 -> 0 <= b < 2 ^ 53 ->
  egcd_rec depth (Fin a) (Fin b) = Some r ->
  exists xv yv,
    r = {| g := Fin (Z.gcd a b); x := Fin xv; y := Fin yv |}
    /\ a * xv + b * yv = Z.gcd a b
    /\ - Z.max 1 b <= xv <= Z.max 1 b
    /\ - Z.max 1 a <= yv <= Z.max 1 a
    /\ (b = 0 -> xv = 1 /\ yv = 0).
Proof.
  revert a b r. induction depth as [|depth IH]; intros a b r Ha Hb H;
    [discriminate|].
  cbn [egcd_rec strict_eq rem] in H. destruct (Z.eqb_spec b 0) as [->|Hb0].
  - injection H as <-. exists 1, 0. rewrite Z.gcd_0_r, Z.abs_eq by lia.
    repeat split; lia.
  - assert (Hrem : Z.rem a b = a mod b) by (apply Z.rem_mod_nonneg; lia).
    cbv iota in H. rewrite Hrem in H.
    pose proof (Z.mod_pos_bound a b ltac:(lia)) as Hr.
    destruct (egcd_rec depth (Fin b) (Fin (a mod b))) as [r'|] eqn:Hrec;
      [|discriminate].
    destruct (IH b (a mod b) r' Hb ltac:(lia) Hrec)
      as (x' & y' & -> & Hbez & Hx' & Hy' & Hzero).
    cbn [x y g] in H.
    pose proof (Z.div_mod a b Hb0) as Hdm.
    assert (Hq : 0 <= a / b) by (apply Z.div_pos; lia).
    rewrite (floor_div_exact a b Ha ltac:(lia)) in H.
    assert (Hy1 : - b <= y' <= b) by lia.
    assert (Hprod : - a <= a / b * y' <= a) by nia.
    rewrite mul_small in H by lia.
    assert (Hyv : - Z.max 1 a <= x' - a / b * y' <= Z.max 1 a).
    { destruct (Z.eq_dec (a mod b) 0) as [Hz|Hnz].
      - destruct (Hzero Hz) as [-> ->]. lia.
      - assert (- (a mod b) <= x' <= a mod b) by lia. nia. }
    rewrite sub_small in H by lia.
    injection H as <-.
    assert (Hg : Z.gcd b (a mod b) = Z.gcd a b).
    { rewrite (Z.gcd_comm b), Z.gcd_mod by assumption. apply Z.gcd_comm. }
    rewrite Hg in *.
    exists y', (x' - a / b * y'). split; [reflexivity|].
    split; [rewrite <- Hbez; nia|].
    split; [lia|]. split; [exact Hyv|]. intros; contradiction.
Qed.

(** The second argument at least halves every two calls. *)
Lemma rem_halves (b b1 : Z) :
  b1 <> 0 -> Z.abs b1 < Z.abs b -> 2 * Z.abs (Z.rem b b1) < Z.abs b.
Proof.
  intros Hb1 Hlt. rewrite <- Z.rem_abs by assumption.
  rewrite Z.rem_mod_nonneg by lia.
  pose proof (Z.div_mod (Z.abs b) (Z.abs b1) ltac:(lia)) as Hdm.
  pose proof (Z.mod_pos_bound (Z.abs b) (Z.abs b1) ltac:(lia)) as Hm.
  assert (1 <= Z.abs b / Z.abs b1) by (apply Z.div_le_lower_bound; lia).
  nia.
Qed.

Lemma egcd64_rec_step (depth : nat) (a b : Z) :
  b <> 0 ->
  egcd_rec (S depth) (Fin a) (Fin b)
  = match egcd_rec depth (Fin b) (Fin (Z.rem a b)) with
    | None => None
    | Some r =>
        Some {| g := g r; x := y r;
                y := sub (x r) (mul (floor_div (Fin a) (Fin b)) (y r)) |}
    end.
Proof.
  intros Hb. cbn [egcd_rec strict_eq rem].
  now destruct (Z.eqb_spec b 0) as [?|_].
Qed.

(** On integers [egcd] returns, within twice as many nested calls as the
    second argument has bits, plus one. *)
Lemma egcd64_rec_returns (k depth : nat) (a b : Z) :
  Z.abs b < 2 ^ Z.of_nat k -> (2 * k + 1 <= depth)%nat ->
  exists r, egcd_rec depth (Fin a) (Fin b) = Some r.
Proof.
  revert depth a b. induction k as [|k IH]; intros depth a b Hb Hd.
  - destruct depth as [|depth]; [lia|].
    assert (b = 0) as -> by (simpl in Hb; lia). simpl. eauto.
  - destruct depth as [|[|depth]]; [lia|lia|].
    destruct (Z.eq_dec b 0) as [->|Hb0]; [simpl; eauto|].
    rewrite egcd64_rec_step by assumption.
    set (b1 := Z.rem a b).
    assert (Hb1 : Z.abs b1 < Z.abs b) by (apply Z.rem_bound_abs; lia).
    destruct (Z.eq_dec b1 0) as [Hz|Hb10]; [rewrite Hz; simpl; eauto|].
    rewrite egcd64_rec_step by assumption.
    destruct (IH depth b1 (Z.rem b b1)) as [r Hr].
    + pose proof (rem_halves b b1 Hb10 Hb1).
      rewrite Nat2Z.inj_succ, Z.pow_succ_r in Hb by lia. lia.
    + lia.
    + rewrite Hr. eauto.
Qed.

Lemma egcd64_returns (a b : Z) :
  exists r, egcd (Fin a) (Fin b) = Returns r
            /\ exists depth, egcd_rec depth (Fin a) (Fin b) = Some r.
Proof.
  unfold egcd, egcd_depth.
  destruct (egcd64_rec_returns (S (Z.to_nat (Z.log2 (Z.abs b))))
              (S (2 * S (Z.to_nat (Z.log2 (Z.abs b))))) a b) as [r Hr].
  - rewrite Nat2Z.inj_succ, Z2Nat.id by apply Z.log2_nonneg.
    destruct (Z.eq_dec b 0) as [->|Hb0]; [reflexivity|].
    apply Z.log2_spec. lia.
  - lia.
  - rewrite Hr. eauto.
Qed.

(** Below [2^53], on non-negative integers, [egcd] returns the gcd with
    Bezout coefficients. *)
Lemma egcd64_exact (a b : Z) :
  0 <= a < 2 ^ 53 -> 0 <= b < 2 ^ 53 ->
  exists xv yv,
    egcd (Fin a) (Fin b)
    = Returns {| g := Fin (Z.gcd a b); x := Fin xv; y := Fin yv |}
    /\ a * xv + b * yv = Z.gcd a b
    /\ - Z.max 1 b <= xv <= Z.max 1 b.
Proof.
  intros Ha Hb. destruct (egcd64_returns a b) as (r & Heq & depth & Hrec).
  destruct (egcd64_rec_spec depth a b r Ha Hb Hrec)
    as (xv & yv & -> & Hbez & Hx & _).
  now exists xv, yv.
Qed.

End Egcd64Facts.

Section Egcd64Sign.
Import JS64 RSA64.

(** Whatever the signs and the size of the integers, the [g] that [egcd]
    returns is the gcd up to sign (it is reached through [%] alone, which
    is exact), and it is non-positive when both arguments are. *)
Lemma egcd64_rec_g (depth : nat) (a b : Z) (r : bezout) :
  egcd_rec depth (Fin a) (Fin b) = Some r ->
  exists gv, g r = Fin gv /\ Z.abs gv = Z.gcd a b
             /\ (a <= 0 -> b <= 0 -> gv <= 0).
Proof.
  revert a b r. induction depth as [|depth IH]; intros a b r H;
    [discriminate|].
  destruct (Z.eq_dec b 0) as [->|Hb0].
  - simpl in H. injection H as <-. exists a. rewrite Z.gcd_0_r.
    repeat split; lia.
  - rewrite egcd64_rec_step in H by assumption.
    destruct (egcd_rec depth (Fin b) (Fin (Z.rem a b))) as [r'|] eqn:Hrec;
      [|discriminate].
    injection H as <-. cbn [g].
    destruct (IH b (Z.rem a b) r' Hrec) as (gv & Hg & Habs & Hsign).
    exists gv. split; [assumption|]. split.
    + rewrite Habs, (Z.gcd_comm a b).
      rewrite (Z.rem_eq a b) by assumption.
      replace (a - b * (a ÷ b)) with (a + (- (a ÷ b)) * b) by ring.
      now rewrite Z.gcd_add_mult_diag_r.
    + intros Ha Hb. apply Hsign; [assumption|].
      pose proof (Z.rem_nonneg (- a) b Hb0 ltac:(lia)) as Hn.
      rewrite Z.rem_opp_l in Hn by assumption. lia.
Qed.



End Egcd64Sign.

(** ** [modInv] on doubles *)

Section ModInv64Facts.
Import JS64 RSA64.

Lemma modInv64_zero (a : value) : modInv a (Fin 0) = Returns null.
Proof. destruct a as [[z| | |]|]; reflexivity. Qed.

(** The first argument handed to [egcd], for a modulus up to [2^52] in
    magnitude: the sum [a % m + m] stays below [2^53]. *)
Lemma modInv64_argument (av m : Z) :
  m <> 0 -> Z.abs m <= 2 ^ 52 ->
  rem (add (rem (Fin av) (Fin m)) (Fin m)) (Fin m)
  = Fin (Z.rem (Z.rem av m + m) m).
Proof.
  intros Hm Hb. cbn [rem].
  destruct (Z.eqb_spec m 0) as [?|_]; [contradiction|].
  assert (Hr : Z.abs (Z.rem av m) < Z.abs m) by (apply Z.rem_bound_abs; lia).
  rewrite add_small by lia. cbn [rem].
  now destruct (Z.eqb_spec m 0) as [?|_].
Qed.

(** For a modulus [0 < m <= 2^52]: the inverse, reduced to [0 <= d < m],
    when the arguments are coprime, [null] when they are not. *)
Lemma modInv64_pos (a : value) (av m : Z) :
  ToNumber a = Fin av -> 0 < m <= 2 ^ 52 ->
  (Z.gcd av m = 1
   /\ exists dv, modInv a (Fin m) = Returns (Some (Fin dv))
                 /\ 0 <= dv < m /\ (av * dv) mod m = 1 mod m)
  \/ (Z.gcd av m <> 1 /\ modInv a (Fin m) = Returns null).
Proof.
  intros Ha Hm. unfold modInv. rewrite Ha.
  rewrite modInv64_argument, rem_add_rem_pos by lia.
  pose proof (Z.mod_pos_bound av m ltac:(lia)) as Hmod.
  destruct (egcd64_exact (av mod m) m ltac:(lia) ltac:(lia))
    as (xv & yv & -> & Hbez & Hx).
  assert (Hg : Z.gcd (av mod m) m = Z.gcd av m).
  { rewrite Z.gcd_mod by lia. apply Z.gcd_comm. }
  rewrite Hg in *. cbn [mbind outcome_bind g x strict_eq].
  destruct (Z.eqb_spec (Z.gcd av m) 1) as [Hone|Hne]; cbn [negb].
  - left. split; [assumption|].
    rewrite modInv64_argument, rem_add_rem_pos by lia.
    exists (xv mod m). split; [reflexivity|]. split.
    + apply Z.mod_pos_bound; lia.
    + rewrite Z.mul_mod_idemp_r by lia.
      rewrite <- Z.mul_mod_idemp_l by lia.
      replace (av mod m * xv) with (1 + (- yv) * m) by lia.
      now rewrite Z.mod_add by lia.
  - right. now split.
Qed.

(** For a modulus [- 2^52 <= m < 0] both arguments of [egcd] are
    non-positive, so is [g], and the answer is [null]. *)
Lemma modInv64_neg (a : value) (av m : Z) :
  ToNumber a = Fin av -> - 2 ^ 52 <= m < 0 -> modInv a (Fin m) = Returns null.
Proof.
  intros Ha Hm. unfold modInv. rewrite Ha.
  rewrite modInv64_argument by lia.
  assert (Hb : Z.abs (Z.rem av m) < Z.abs m) by (apply Z.rem_bound_abs; lia).
  assert (Hs : Z.rem (Z.rem av m + m) m <= 0).
  { pose proof (Z.rem_nonneg (- (Z.rem av m + m)) m ltac:(lia) ltac:(lia))
      as Hn.
    rewrite Z.rem_opp_l in Hn by lia. lia. }
  destruct (egcd64_returns (Z.rem (Z.rem av m + m) m) m)
    as (r & -> & depth & Hrec).
  destruct (egcd64_rec_g depth _ _ r Hrec) as (gv & Hg & _ & Hsign).
  cbn [mbind outcome_bind]. rewrite Hg. cbn [strict_eq].
  destruct (Z.eqb_spec gv 1) as [?|_]; [|reflexivity].
  specialize (Hsign Hs ltac:(lia)). lia.
Qed.

End ModInv64Facts.

Section ModInv64Claims.
Import JS64 RSA64.

(** C1 (amended).  For naturals [e] and [m] with [1 < m <= 2^52],
    [modInv(e, m)] returns a [d] with [0 <= d < m] and [(e * d) mod m = 1]
    if and only if [gcd(e, m) = 1], and returns [null] otherwise. *)
Theorem modInv64_inverse_iff_coprime (ev m : Z) :
  0 <= ev -> 1 < m <= 2 ^ 52 ->
  ((exists dv, modInv (Some (Fin ev)) (Fin m) = Returns (Some (Fin dv))
               /\ 0 <= dv < m /\ (ev * dv) mod m = 1)
   <-> Z.gcd ev m = 1)
  /\ (Z.gcd ev m <> 1 -> modInv (Some (Fin ev)) (Fin m) = Returns null).
Proof.
  intros He Hm.
  destruct (modInv64_pos (Some (Fin ev)) ev m eq_refl ltac:(lia))
    as [[Hg (dv & Heq & Hd & Hinv)] | [Hg Hnull]].
  - rewrite Z.mod_1_l in Hinv by lia. split; [|intros; contradiction].
    split; [intros _; assumption|]. intros _. now exists dv.
  - split; [|intros _; assumption]. split; [|intros; contradiction].
    intros (dv & Heq & _). rewrite Hnull in Heq. discriminate.
Qed.

(** The pair [(e, phi(n)) = (3, 352)] of preset L1. *)
Lemma modInv64_inverse_iff_coprime_witness :
  ((exists dv, modInv (Some (Fin 3)) (Fin 352) = Returns (Some (Fin dv))
               /\ 0 <= dv < 352 /\ (3 * dv) mod 352 = 1)
   <-> Z.gcd 3 352 = 1)
  /\ (Z.gcd 3 352 <> 1 -> modInv (Some (Fin 3)) (Fin 352) = Returns null).
Proof. apply (modInv64_inverse_iff_coprime 3 352); lia. Defined.

(** C1 as stated fails beyond [2^52], where [a % m + m] is rounded:
    [modInv(2, 2^53 - 1)] is [1], and [modInv(2^52, 2^52 + 1)] is [2^51];
    neither is an inverse, though the arguments are coprime. *)
Lemma modInv64_inverse_iff_coprime_counterexample :
  (Z.gcd 2 (2 ^ 53 - 1) = 1
   /\ modInv (Some (Fin 2)) (Fin (2 ^ 53 - 1)) = Returns (Some (Fin 1))
   /\ (2 * 1) mod (2 ^ 53 - 1) <> 1)
  /\ (Z.gcd (2 ^ 52) (2 ^ 52 + 1) = 1
      /\ modInv (Some (Fin (2 ^ 52))) (Fin (2 ^ 52 + 1))
         = Returns (Some (Fin (2 ^ 51)))
      /\ (2 ^ 52 * 2 ^ 51) mod (2 ^ 52 + 1) <> 1).
Proof.
  repeat split; try (vm_compute; reflexivity); vm_compute; discriminate.
Qed.

(** X1.  On non-negative integers below [2^53], [egcd(a, b)] returns
    [g = gcd(a, b)] together with coefficients [x], [y] such that
    [a*x + b*y = g]. *)
Theorem egcd64_bezout (a b : Z) :
  0 <= a < 2 ^ 53 -> 0 <= b < 2 ^ 53 ->
  exists xv yv,
    egcd (Fin a) (Fin b)
    = Returns {| g := Fin (Z.gcd a b); x := Fin xv; y := Fin yv |}
    /\ a * xv + b * yv = Z.gcd a b.
Proof.
  intros Ha Hb. destruct (egcd64_exact a b Ha Hb) as (xv & yv & Heq & Hbez & _).
  now exists xv, yv.
Qed.

(** The call [egcd(352, 3)]: [352 * 1 + 3 * (-117) = 1]. *)
Lemma egcd64_bezout_witness :
  exists xv yv,
    egcd (Fin 352) (Fin 3)
    = Returns {| g := Fin (Z.gcd 352 3); x := Fin xv; y := Fin yv |}
    /\ 352 * xv + 3 * yv = Z.gcd 352 3.
Proof. apply (egcd64_bezout 352 3); lia. Defined.

(** X2.  For every integer [a], negative ones included, and every modulus
    [1 <= m <= 2^52], [modInv(a, m)] returns the inverse [d] of [a] modulo
    [m], reduced to [0 <= d < m], if [gcd(a, m) = 1], and [null] if not. *)
Theorem modInv64_any_sign (av m : Z) :
  0 < m <= 2 ^ 52 ->
  (Z.gcd av m = 1 ->
   exists dv, modInv (Some (Fin av)) (Fin m) = Returns (Some (Fin dv))
              /\ 0 <= dv < m /\ (av * dv) mod m = 1 mod m)
  /\ (Z.gcd av m <> 1 -> modInv (Some (Fin av)) (Fin m) = Returns null).
Proof.
  intros Hm.
  destruct (modInv64_pos (Some (Fin av)) av m eq_refl Hm)
    as [[Hg Hd] | [Hg Hnull]]; split; intros H; try contradiction; assumption.
Qed.

(** [modInv(-3, 352)] is [117]: [-3 * 117 = -351 = 1 - 352]. *)
Lemma modInv64_any_sign_witness :
  exists dv, modInv (Some (Fin (-3))) (Fin 352) = Returns (Some (Fin dv))
             /\ 0 <= dv < 352 /\ (-3 * dv) mod 352 = 1 mod 352.
Proof.
  apply (proj1 (modInv64_any_sign (-3) 352 ltac:(lia))). reflexivity.
Defined.

(** X3.  For a modulus [- 2^52 <= m <= 0] and a first argument that is
    [null] or an integer, [modInv] returns [null], also when the arguments
    are coprime. *)
Theorem modInv64_nonpositive_modulus (a : value) (av m : Z) :
  ToNumber a = Fin av -> - 2 ^ 52 <= m <= 0 -> modInv a (Fin m) = Returns null.
Proof.
  intros Ha Hm. destruct (Z.eq_dec m 0) as [->|Hm0]; [apply modInv64_zero|].
  apply (modInv64_neg a av); [assumption|lia].
Qed.

(** [3] and [-16] are coprime, yet [modInv(3, -16)] is [null]. *)
Lemma modInv64_nonpositive_modulus_witness :
  Z.gcd 3 (-16) = 1 /\ modInv (Some (Fin 3)) (Fin (-16)) = Returns null.
Proof.
  split; [reflexivity|].
  apply (modInv64_nonpositive_modulus (Some (Fin 3)) 3 (-16));
    [reflexivity|lia].
Defined.

(** X4.  Inverting twice gives back the residue: for [1 < m <= 2^52] and
    [gcd(a, m) = 1], [modInv(modInv(a, m), m) = a mod m]. *)
Theorem modInv64_involutive (av m : Z) :
  1 < m <= 2 ^ 52 -> Z.gcd av m = 1 ->
  exists dv, modInv (Some (Fin av)) (Fin m) = Returns (Some (Fin dv))
             /\ modInv (Some (Fin dv)) (Fin m)
                = Returns (Some (Fin (av mod m))).
Proof.
  intros Hm Hg.
  destruct (modInv64_pos (Some (Fin av)) av m eq_refl ltac:(lia))
    as [[_ (dv & Heq & Hd & Hinv)] | [Hne _]]; [|contradiction].
  rewrite Z.mod_1_l in Hinv by lia.
  exists dv. split; [assumption|].
  assert (Hgd : Z.gcd dv m = 1).
  { apply Z.bezout_1_gcd. exists av, (- ((av * dv) / m)).
    pose proof (Z.div_mod (av * dv) m ltac:(lia)) as Hdm. lia. }
  destruct (modInv64_pos (Some (Fin dv)) dv m eq_refl ltac:(lia))
    as [[_ (ev & Heq' & He & Hinv')] | [Hne _]]; [|contradiction].
  rewrite Z.mod_1_l in Hinv' by lia.
  rewrite Heq'. do 3 f_equal.
  rewrite <- (Z.mod_small ev m) by assumption.
  rewrite <- (Z.mul_1_r ev), <- Hinv, Z.mul_mod_idemp_r by lia.
  replace (ev * (av * dv)) with (av * (dv * ev)) by ring.
  rewrite <- Z.mul_mod_idemp_r, Hinv', Z.mul_1_r by lia. reflexivity.
Qed.

(** Preset L1: [modInv(3, 352) = 235] and [modInv(235, 352) = 3]. *)
Lemma modInv64_involutive_witness :
  exists dv, modInv (Some (Fin 3)) (Fin 352) = Returns (Some (Fin dv))
             /\ modInv (Some (Fin dv)) (Fin 352)
                = Returns (Some (Fin (3 mod 352))).
Proof. apply (modInv64_involutive 3 352); [lia|reflexivity]. Defined.

End ModInv64Claims.

(** ** [compute] on doubles *)

Section Compute64Facts.
Import JS64 RSA64.

Lemma shown_values_inv (st : state) (N phi : double) (D : value)
      (P Q : double) :
  shown st = Some (Values N phi D P Q) ->
  resolve st = Returns (P, Q, N)
  /\ phi = mul (sub P (Fin 1)) (sub Q (Fin 1))
  /\ modInv (read (e st)) phi = Returns D.
Proof.
  unfold shown, compute, compute_try.
  destruct (resolve st) as [[[P0 Q0] N0]|err|]; cbn [mbind outcome_bind out];
    try discriminate.
  destruct (modInv (read (e st)) (mul (sub P0 (Fin 1)) (sub Q0 (Fin 1))))
    as [D0|err|] eqn:HD; cbn [mbind outcome_bind out]; try discriminate.
  intros H. injection H as <- <- <- <- <-. now rewrite HD.
Qed.

Lemma shown_resolved (st : state) (P Q N : double) (D : value) :
  resolve st = Returns (P, Q, N) ->
  modInv (read (e st)) (mul (sub P (Fin 1)) (sub Q (Fin 1))) = Returns D ->
  shown st
  = Some (Values N (mul (sub P (Fin 1)) (sub Q (Fin 1))) D P Q).
Proof.
  intros Hres HD. unfold shown, compute, compute_try.
  rewrite Hres. cbn [mbind outcome_bind]. rewrite HD. reflexivity.
Qed.

(** With non-zero [p] and [q] entered and a non-zero product, [N] is the
    product and the factoring branch is skipped. *)
Lemma resolve64_given_pq (st : state) (pv qv : Z) :
  p st = Entered (Fin pv) -> q st = Entered (Fin qv) ->
  pv <> 0 -> qv <> 0 -> truthy_num (mul (Fin pv) (Fin qv)) = true ->
  resolve st = Returns (Fin pv, Fin qv, mul (Fin pv) (Fin qv)).
Proof.
  intros Hp Hq Hpv Hqv Ht. unfold resolve. rewrite Hp, Hq.
  cbn [read truthy truthy_num ToNumber].
  destruct (Z.eqb_spec pv 0) as [?|_]; [contradiction|].
  destruct (Z.eqb_spec qv 0) as [?|_]; [contradiction|].
  cbn [negb andb orb mbind outcome_bind fst snd truthy ToNumber truthy_num].
  destruct (Z.eqb_spec pv 0) as [?|_]; [contradiction|].
  destruct (Z.eqb_spec qv 0) as [?|_]; [contradiction|].
  cbn [negb orb]. rewrite Ht. reflexivity.
Qed.

(** A finite product is a double. *)
Lemma mul_representable (a b : double) (z : Z) :
  mul a b = Fin z -> representable z.
Proof.
  destruct a as [u| | |], b as [v| | |]; cbn [mul]; try discriminate;
    try (destruct (_ =? 0); [discriminate|]);
    try (now destruct (xorb _ _)).
  apply round_representable.
Qed.

(** [egcd(0, b)] for [b <> 0]: one nested call, [g = b]. *)
Lemma egcd64_zero_l (b : Z) :
  b <> 0 -> egcd (Fin 0) (Fin b)
            = Returns {| g := Fin b; x := Fin 0; y := Fin 1 |}.
Proof.
  intros Hb. unfold egcd, egcd_depth.
  set (k := Z.to_nat (Z.log2 (Z.abs b))).
  replace (S (2 * S k)) with (S (S (2 * k + 1))) by lia.
  rewrite egcd64_rec_step by assumption.
  rewrite Z.rem_0_l by assumption.
  cbn [egcd_rec strict_eq Z.eqb g x y floor_div].
  destruct (Z.eqb_spec b 0) as [?|_]; [contradiction|].
  reflexivity.
Qed.

(** [modInv] of a missing [e]: the first argument of [egcd] is [0], and
    the answer is [null] unless the modulus is [1]. *)
Lemma modInv64_null (m : Z) :
  representable m -> m <> 1 -> modInv null (Fin m) = Returns null.
Proof.
  intros Hr Hm. destruct (Z.eq_dec m 0) as [->|H0]; [reflexivity|].
  unfold modInv. cbn [ToNumber null rem].
  destruct (Z.eqb_spec m 0) as [?|_]; [contradiction|].
  rewrite Z.rem_0_l by assumption. cbn [add]. rewrite Z.add_0_l, Hr.
  cbn [rem]. destruct (Z.eqb_spec m 0) as [?|_]; [contradiction|].
  rewrite Z.rem_same by assumption.
  rewrite egcd64_zero_l by assumption.
  cbn [mbind outcome_bind g strict_eq].
  now destruct (Z.eqb_spec m 1) as [?|_].
Qed.


(** [modInv] returns for an integer operand and a modulus up to [2^52]. *)
Lemma modInv64_returns (a : value) (av m : Z) :
  ToNumber a = Fin av -> Z.abs m <= 2 ^ 52 ->
  exists D, modInv a (Fin m) = Returns D.
Proof.
  intros Ha Hm.
  destruct (Z.lt_trichotomy m 0) as [Hneg|[->|Hpos]].
  - exists null. apply (modInv64_neg a av); [assumption|lia].
  - exists null. apply modInv64_zero.
  - destruct (modInv64_pos a av m Ha ltac:(lia))
      as [[_ (dv & -> & _)]|[_ ->]]; eauto.
Qed.

End Compute64Facts.

(** Whatever [resolve] returns, its [N] is the double product of its [P]
    and [Q]: by line 276 when both factors are entered, and because the
    cofactor found by [trialFactor] is the exact quotient otherwise. *)
Section Resolve64Facts.
Import JS64 RSA64.

Lemma trialFactor64_product (z : Z) (f0 f1 : JS.num) :
  representable z ->
  RSA.trialFactor (JS.Int z) = Some (f0, f1) ->
  mul (of_exact f0) (of_exact f1) = Fin z.
Proof.
  intros Hr H. unfold RSA.trialFactor in H.
  pose proof (trialFactor_from_spec z 2 ltac:(lia)) as Hspec.
  rewrite H in Hspec.
  destruct Hspec as (pv & -> & -> & Hle & _ & Hdiv & _).
  cbn [of_exact mul].
  replace (pv * (z / pv)) with z; [exact Hr|].
  apply Z.div_exact in Hdiv; lia.
Qed.

Lemma resolve64_product (st : state) (P Q N : double) :
  (forall z, n st = Entered (Fin z) -> representable z) ->
  resolve st = Returns (P, Q, N) -> N = mul P Q.
Proof.
  intros Hn. unfold resolve.
  destruct (truthy (read (p st))) eqn:HP, (truthy (read (q st))) eqn:HQ;
    cbn [andb negb orb mbind outcome_bind fst snd].
  1: { rewrite HP, HQ. cbn [negb orb].
       destruct (truthy (Some _)); cbn [negb ToNumber]; [|discriminate].
       intros H. now injection H as <- <- <-. }
  all: destruct (n st) as [|[z| | |]] eqn:En;
    cbn [read truthy truthy_num null andb negb orb mbind outcome_bind
         fst snd ToNumber trialFactor];
    rewrite ?HP, ?HQ; cbn [negb orb]; try discriminate;
    (destruct (Z.eqb_spec z 0) as [?|Hz];
       cbn [negb mbind outcome_bind fst snd];
       rewrite ?HP, ?HQ; cbn [negb orb]; [discriminate|]);
    (destruct (RSA.trialFactor (JS.Int z)) as [[f0 f1]|] eqn:Hfac;
       cbn [fst snd]; rewrite ?HP, ?HQ; cbn [negb orb];
       [|discriminate]);
    (match goal with
     | |- (if ?c then _ else _) = _ -> _ => destruct c; [discriminate|]
     end);
    cbn [ToNumber]; intros H; injection H as <- <- <-;
    symmetry; apply (trialFactor64_product z f0 f1 (Hn z eq_refl) Hfac).
Qed.

End Resolve64Facts.

Section Compute64Claims.
Import JS64 RSA64.

(** C4 (amended).  Whenever both [p] and [q] are supplied to [compute] as
    non-zero integers whose product is a double, the reported [n] equals
    [p*q] whatever [n] was supplied; for factors [0 < p, q < 2^53] with
    [(p-1)*(q-1) <= 2^52] and [e] empty or an integer, [compute] does
    report [n = p*q] and [phi = (p-1)*(q-1)]; and for preset L1 it reports
    [n = 391], [phi = 352] and [d = 235]. *)
Theorem compute64_n_is_pq (st : state) (pv qv : Z) :
  p st = Entered (Fin pv) -> q st = Entered (Fin qv) ->
  pv <> 0 -> qv <> 0 -> representable (pv * qv) ->
  (forall N phi D P Q,
      shown st = Some (Values N phi D P Q) -> N = Fin (pv * qv))
  /\ (0 < pv < 2 ^ 53 -> 0 < qv < 2 ^ 53 -> (pv - 1) * (qv - 1) <= 2 ^ 52 ->
      (forall v, e st = Entered v -> exists ev, v = Fin ev) ->
      exists D, shown st
                = Some (Values (Fin (pv * qv)) (Fin ((pv - 1) * (qv - 1))) D
                               (Fin pv) (Fin qv)))
  /\ (exists def,
        RSA.rsaLevels !! 0%nat = Some def /\ RSA.key def = "L1"%string
        /\ shown (init def)
           = Some (Values (Fin 391) (Fin 352) (Some (Fin 235))
                          (Fin 17) (Fin 23))).
Proof.
  intros Hp Hq Hpv Hqv Hrep.
  assert (Hmul : mul (Fin pv) (Fin qv) = Fin (pv * qv)) by exact Hrep.
  assert (Ht : truthy_num (mul (Fin pv) (Fin qv)) = true).
  { rewrite Hmul. cbn [truthy_num].
    destruct (Z.eqb_spec (pv * qv) 0) as [H0|_]; [|reflexivity].
    apply Z.mul_eq_0 in H0. tauto. }
  pose proof (resolve64_given_pq st pv qv Hp Hq Hpv Hqv Ht) as Hres.
  rewrite Hmul in Hres.
  split; [|split].
  - intros N phi D P Q H.
    destruct (shown_values_inv st N phi D P Q H) as (Hres' & _).
    congruence.
  - intros Hpb Hqb Hphi He.
    assert (HE : exists ev, ToNumber (read (e st)) = Fin ev).
    { destruct (e st) as [|v]; [now exists 0|].
      destruct (He v eq_refl) as (ev & ->). now exists ev. }
    destruct HE as (ev & HE).
    assert (Hphi' : mul (sub (Fin pv) (Fin 1)) (sub (Fin qv) (Fin 1))
                    = Fin ((pv - 1) * (qv - 1))).
    { rewrite !sub_small by lia. apply mul_small. nia. }
    destruct (modInv64_returns (read (e st)) ev ((pv - 1) * (qv - 1)) HE)
      as (D & HD); [nia|].
    exists D. rewrite <- Hphi' in HD |- *.
    now apply shown_resolved.
  - eexists. split; [reflexivity|]. split; vm_compute; reflexivity.
Qed.

(** Preset L2 has [p = 19] and [q = 23] next to [n = 437]. *)
Lemma compute64_n_is_pq_witness :
  exists st,
    (forall N phi D P Q,
        shown st = Some (Values N phi D P Q) -> N = Fin (19 * 23))
    /\ shown st
       = Some (Values (Fin 437) (Fin 396) (Some (Fin 317)) (Fin 19) (Fin 23)).
Proof.
  exists {| p := Entered (Fin 19); q := Entered (Fin 23);
            n := Entered (Fin 437); e := Entered (Fin 5); d := Blank;
            hint := EmptyString; out := None |}.
  split.
  - apply (compute64_n_is_pq _ 19 23);
      [reflexivity | reflexivity | lia | lia | vm_compute; reflexivity].
  - vm_compute. reflexivity.
Defined.

(** The presence test of line 276 is the truthiness test [P&&Q]: with
    [p = 0], [q = 5] and [n = 15] entered, trial division replaces the
    factors by [3] and [5] and the reported [n] is [15], not [0*5].  And
    the product is a double product: with [p = q = 94906267] the reported
    [n] is [9007199515875288], one less than [p*q]. *)
Lemma compute64_n_is_pq_counterexample :
  (exists st,
      p st = Entered (Fin 0) /\ q st = Entered (Fin 5)
      /\ shown st
         = Some (Values (Fin 15) (Fin 8) (Some (Fin 3)) (Fin 3) (Fin 5))
      /\ 15 <> 0 * 5)
  /\ (exists st,
         p st = Entered (Fin 94906267) /\ q st = Entered (Fin 94906267)
         /\ shown st
            = Some (Values (Fin 9007199515875288) (Fin 9007199326062756)
                           null (Fin 94906267) (Fin 94906267))
         /\ 9007199515875288 <> 94906267 * 94906267).
Proof.
  split.
  - exists {| p := Entered (Fin 0); q := Entered (Fin 5);
              n := Entered (Fin 15); e := Entered (Fin 3); d := Blank;
              hint := EmptyString; out := None |}.
    split; [reflexivity|]. split; [reflexivity|].
    split; [vm_compute; reflexivity | lia].
  - exists {| p := Entered (Fin 94906267); q := Entered (Fin 94906267);
              n := Blank; e := Blank; d := Blank;
              hint := EmptyString; out := None |}.
    split; [reflexivity|]. split; [reflexivity|].
    split; [vm_compute; reflexivity | lia].
Qed.

(** C10 (amended).  When [p] and [q] are resolved, [e] is missing and
    [phi(n)] is a finite number other than [1], [compute] raises no error
    and reports the no-inverse outcome ([d = null]) with [n] and [phi(n)]
    shown; for [phi(n) <> 0], [modInv] maps the missing [e] to [0] modulo
    [phi(n)] and [egcd(0, phi(n))] returns [g = phi(n)], which is not
    [1]. *)
Theorem compute64_missing_e (st : state) (P Q N : double) (phiz : Z) :
  e st = Blank ->
  resolve st = Returns (P, Q, N) ->
  mul (sub P (Fin 1)) (sub Q (Fin 1)) = Fin phiz ->
  phiz <> 1 ->
  shown st = Some (Values N (Fin phiz) null P Q)
  /\ (phiz <> 0 ->
      rem (add (rem (ToNumber (read (e st))) (Fin phiz)) (Fin phiz))
          (Fin phiz) = Fin 0
      /\ exists r, egcd (Fin 0) (Fin phiz) = Returns r /\ g r = Fin phiz).
Proof.
  intros He Hres Hphi Hne.
  pose proof (mul_representable _ _ _ Hphi) as Hrep.
  split.
  - rewrite <- Hphi. apply shown_resolved; [assumption|].
    rewrite He, Hphi. now apply modInv64_null.
  - intros H0. split.
    + rewrite He. cbn [read ToNumber null rem].
      destruct (Z.eqb_spec phiz 0) as [?|_]; [contradiction|].
      rewrite Z.rem_0_l by assumption. cbn [add]. rewrite Z.add_0_l, Hrep.
      cbn [rem]. destruct (Z.eqb_spec phiz 0) as [?|_]; [contradiction|].
      now rewrite Z.rem_same.
    + eexists. split; [now apply egcd64_zero_l|reflexivity].
Qed.

(** Preset L1 with its [e] erased. *)
Lemma compute64_missing_e_witness :
  exists st,
    e st = Blank
    /\ shown st = Some (Values (Fin 391) (Fin 352) null (Fin 17) (Fin 23))
    /\ (352 <> 0 ->
        rem (add (rem (ToNumber (read (e st))) (Fin 352)) (Fin 352))
            (Fin 352) = Fin 0
        /\ exists r, egcd (Fin 0) (Fin 352) = Returns r /\ g r = Fin 352).
Proof.
  exists {| p := Entered (Fin 17); q := Entered (Fin 23); n := Blank;
            e := Blank; d := Blank; hint := EmptyString; out := None |}.
  split; [reflexivity|].
  apply (compute64_missing_e _ (Fin 17) (Fin 23) (Fin 391));
    [reflexivity | vm_compute; reflexivity | vm_compute; reflexivity | lia].
Defined.

(** With [p = q = 2] and [e] empty, [phi(n) = 1]: [egcd(0, 1)] gives
    [g = 1] and [d] is shown as [0], not as no inverse.  With
    [p = q = 1e200], [phi(n)] is [Infinity], the first argument of [egcd]
    is [NaN], the recursion never reaches [b === 0], and a [RangeError] is
    shown in place of the values.  With [p = 1], [phi(n) = 0]: the first
    argument of [egcd] is [0 % 0 = NaN], not [0], and so is [g]. *)
Lemma compute64_missing_e_counterexample :
  (exists st,
      e st = Blank
      /\ resolve st = Returns (Fin 2, Fin 2, Fin 4)
      /\ shown st = Some (Values (Fin 4) (Fin 1) (Some (Fin 0)) (Fin 2) (Fin 2)))
  /\ (exists st P,
         e st = Blank
         /\ P = round (10 ^ 200)
         /\ resolve st = Returns (P, P, PosInf)
         /\ mul (sub P (Fin 1)) (sub P (Fin 1)) = PosInf
         /\ shown st = Some (Failed JS.RangeError))
  /\ (exists st,
         e st = Blank
         /\ resolve st = Returns (Fin 1, Fin 5, Fin 5)
         /\ mul (sub (Fin 1) (Fin 1)) (sub (Fin 5) (Fin 1)) = Fin 0
         /\ rem (add (rem (ToNumber (read (e st))) (Fin 0)) (Fin 0)) (Fin 0)
            = NaN
         /\ exists r, egcd NaN (Fin 0) = Returns r /\ g r = NaN).
Proof.
  split; [|split].
  - exists {| p := Entered (Fin 2); q := Entered (Fin 2); n := Blank;
              e := Blank; d := Blank; hint := EmptyString; out := None |}.
    split; [reflexivity|]. split; vm_compute; reflexivity.
  - exists {| p := Entered (round (10 ^ 200)); q := Entered (round (10 ^ 200));
              n := Blank; e := Blank; d := Blank; hint := EmptyString;
              out := None |}.
    eexists. split; [reflexivity|]. split; [reflexivity|].
    split; [vm_compute; reflexivity|]. split; vm_compute; reflexivity.
  - exists {| p := Entered (Fin 1); q := Entered (Fin 5); n := Blank;
              e := Blank; d := Blank; hint := EmptyString; out := None |}.
    split; [reflexivity|]. split; [vm_compute; reflexivity|].
    split; [vm_compute; reflexivity|]. split; [vm_compute; reflexivity|].
    eexists. split; reflexivity.
Qed.

(** X7.  Whenever [compute] shows values, for entries that are integers,
    infinities or not numbers, the [n] shown is the double product of the
    factors shown and [phi] is the double [(P-1)*(Q-1)], also when the
    factors were found by trial division. *)
Theorem compute64_reports_product (st : state) (N phi : double) (D : value)
        (P Q : double) :
  (forall z, n st = Entered (Fin z) -> representable z) ->
  shown st = Some (Values N phi D P Q) ->
  N = mul P Q /\ phi = mul (sub P (Fin 1)) (sub Q (Fin 1)).
Proof.
  intros Hn H.
  destruct (shown_values_inv st N phi D P Q H) as (Hres & Hphi & _).
  split; [|assumption]. now apply (resolve64_product st).
Qed.


End Compute64Claims.


Section Compute64Witnesses.
Import JS64 RSA64.

(** Preset L3-like input: only [n = 437] and [e = 5] entered. *)
Lemma compute64_reports_product_witness :
  Fin 437 = mul (Fin 19) (Fin 23)
  /\ Fin 396 = mul (sub (Fin 19) (Fin 1)) (sub (Fin 23) (Fin 1)).
Proof.
  apply (compute64_reports_product
           {| p := Blank; q := Blank; n := Entered (Fin 437);
              e := Entered (Fin 5); d := Blank; hint := EmptyString;
              out := None |}
           (Fin 437) (Fin 396) (Some (Fin 317)) (Fin 19) (Fin 23)).
  - intros z H. injection H as <-. vm_compute. reflexivity.
  - vm_compute. reflexivity.
Defined.


End Compute64Witnesses.

(** * The path contract and the views *)

Section RouterContract.
Import Router.






Lemma main_default : main DEFAULT_WORK_ID = map WorkSection WORK_SECTIONS.
Proof. vm_compute. reflexivity. Qed.

Lemma main_work (w : work) :
  w ∈ WORK_SECTIONS -> main (id w) = [WorkSection w].
Proof.
  intros H. repeat (apply elem_of_cons in H as [->|H]);
    try (vm_compute; reflexivity).
  now apply not_elem_of_nil in H.
Qed.

Lemma main_unknown (k : string) :
  k ∉ DEFAULT_WORK_ID :: WORK_KEYS -> main k = [NotFoundSection].
Proof.
  intros H. unfold main, WORK_SECTIONS. cbn [find id].
  unfold WORK_KEYS in H. rewrite !elem_of_cons in H.
  destruct (String.eqb_spec "1" k) as [E|_]; [exfalso; apply H; subst; auto 10|].
  destruct (String.eqb_spec "2" k) as [E|_]; [exfalso; apply H; subst; auto 10|].
  destruct (String.eqb_spec "3" k) as [E|_]; [exfalso; apply H; subst; auto 10|].
  destruct (String.eqb_spec k DEFAULT_WORK_ID) as [E|_];
    [exfalso; apply H; subst; auto 10|].
  reflexivity.
Qed.



(** X15.  The main area shows the three works of [WORK_SECTIONS], in
    order, for ["all"]; the single section of the work whose identifier is
    the active one for ["1"], ["2"], ["3"], which are the identifiers of
    the three works; and the not-found notice alone for any other
    identifier. *)
Theorem main_sections (activeWorkId : string) :
  (activeWorkId = DEFAULT_WORK_ID ->
   main activeWorkId = map WorkSection WORK_SECTIONS)
  /\ (forall w, w ∈ WORK_SECTIONS -> activeWorkId = id w ->
                main activeWorkId = [WorkSection w])
  /\ (activeWorkId ∉ DEFAULT_WORK_ID :: map id WORK_SECTIONS ->
      main activeWorkId = [NotFoundSection])
  /\ map id WORK_SECTIONS = WORK_KEYS.
Proof.
  split; [intros ->; apply main_default|].
  split; [intros w Hw ->; now apply main_work|].
  split; [apply main_unknown | reflexivity].
Qed.

End RouterContract.

